(** * anagram.py: signature index, difficulty buckets and puzzle generation

    A shallow embedding of [anagram.py] and the properties of its
    query API ([solve], [verify]) and puzzle generator ([generate_puzzle]).

    Python values are modelled as follows.
    - [str] is [string]; a character is a code point in the range 0..255
      (the Latin-1 part of Unicode, which contains ASCII), so that
      [str.strip], [str.lower] and [str.isalpha] are the exact tables of
      Python on that range.
    - [int] is [Z]; [//] is [Z.div] (both round towards minus infinity).
    - [dict] and [defaultdict] are [gmap].
    - The module globals, the dictionary file and the random number
      generator form one [world] that every call threads through. *)

From Stdlib Require Import Ascii String.
From stdpp Require Import gmap strings list sorting fin_maps.

Local Open Scope Z_scope.

(** ** Python built-ins used by the module *)

Module Py.

(** [ord(c)] *)
Definition ord (c : ascii) : N := N_of_ascii c.

Definition in_range (lo hi : N) (c : ascii) : bool :=
  ((lo <=? ord c) && (ord c <=? hi))%N.

(** [c.isspace()] on code points below 256: TAB..CR, FS..US, SPACE,
    NEL (0x85) and NBSP (0xA0). *)
Definition isspace (c : ascii) : bool :=
  in_range 9 13 c || in_range 28 32 c
  || (ord c =? 133)%N || (ord c =? 160)%N.

(** [c.isupper()] on code points below 256: A..Z and the Latin-1
    capitals 0xC0..0xDE except the multiplication sign 0xD7. *)
Definition isupper (c : ascii) : bool :=
  in_range 65 90 c || in_range 192 214 c || in_range 216 222 c.

(** [c.lower()]: every capital below 256 has its small letter 32 places
    further. *)
Definition lower_char (c : ascii) : ascii :=
  if isupper c then ascii_of_N (ord c + 32) else c.

(** [c.isalpha()] on code points below 256: the ASCII letters, the
    ordinal indicators 0xAA and 0xBA, the micro sign 0xB5 and the
    Latin-1 letters 0xC0..0xFF except the two signs 0xD7 and 0xF7. *)
Definition isalpha_char (c : ascii) : bool :=
  in_range 65 90 c || in_range 97 122 c
  || (ord c =? 170)%N || (ord c =? 181)%N || (ord c =? 186)%N
  || in_range 192 214 c || in_range 216 246 c || in_range 248 255 c.

(** A letter a..z. *)
Definition is_a_to_z (c : ascii) : bool := in_range 97 122 c.

(** [list(s)] and [''.join(l)] for a list of one-character strings. *)
Definition chars (s : string) : list ascii := list_ascii_of_string s.
Definition join (l : list ascii) : string := string_of_list_ascii l.

(** [len(s)] *)
Definition len (s : string) : Z := Z.of_nat (List.length (chars s)).

Fixpoint lstrip (l : list ascii) : list ascii :=
  match l with
  | c :: l' => if isspace c then lstrip l' else l
  | [] => []
  end.
Definition rstrip (l : list ascii) : list ascii := rev (lstrip (rev l)).

(** [s.strip()] *)
Definition strip (s : string) : string := join (rstrip (lstrip (chars s))).

(** [s.lower()] *)
Definition lower (s : string) : string := join (map lower_char (chars s)).

(** [s.isalpha()]: at least one character, and all of them letters. *)
Definition isalpha (s : string) : bool :=
  match chars s with
  | [] => false
  | l => forallb isalpha_char l
  end.

(** The order of [sorted] on characters: by code point. *)
Definition char_le (a b : ascii) : Prop := (ord a <= ord b)%N.

Global Instance char_le_dec : RelDecision char_le :=
  fun a b => decide (ord a <= ord b)%N.

(** [sorted(l)] *)
Definition sorted (l : list ascii) : list ascii := merge_sort char_le l.

End Py.

(** ** The module *)

(** [_VOWELS = set("aeiou")] *)
Definition _VOWELS : list ascii := Py.chars "aeiou".

Definition _signature (s : string) : string := Py.join (Py.sorted (Py.chars s)).

(** ** Exceptions, results and the world *)

Inductive exn : Type :=
| FileNotFoundError (msg : string)
| ValueError (msg : string)
| RuntimeError (msg : string)
| AssertionError
| IndexError
| KeyError
| ZeroDivisionError.

Inductive result (A : Type) : Type :=
| Ok (a : A)
| Raise (e : exn).
Arguments Ok {A} a.
Arguments Raise {A} e.

(** The module globals, the word list file beside the module ([None] when
    [sowpods.txt] does not exist, else the lines the file iterator yields)
    and the numbers the random generator is going to draw. *)
Record world : Type := World {
  _ANAGRAM_MAP : option (gmap string (list string));
  _BUCKET_WORDS : option (gmap Z (list string));
  _MIN_LEN : option Z;
  _MAX_LEN : option Z;
  dictionary_file : option (list string);
  random_draws : list nat
}.

(** The module as it is right after import. *)
Definition fresh (file : option (list string)) (draws : list nat) : world :=
  World None None None None file draws.

Definition set_ANAGRAM_MAP (v : option (gmap string (list string))) (σ : world) :=
  World v (_BUCKET_WORDS σ) (_MIN_LEN σ) (_MAX_LEN σ) (dictionary_file σ) (random_draws σ).
Definition set_BUCKET_WORDS (v : option (gmap Z (list string))) (σ : world) :=
  World (_ANAGRAM_MAP σ) v (_MIN_LEN σ) (_MAX_LEN σ) (dictionary_file σ) (random_draws σ).
Definition set_MIN_LEN (v : option Z) (σ : world) :=
  World (_ANAGRAM_MAP σ) (_BUCKET_WORDS σ) v (_MAX_LEN σ) (dictionary_file σ) (random_draws σ).
Definition set_MAX_LEN (v : option Z) (σ : world) :=
  World (_ANAGRAM_MAP σ) (_BUCKET_WORDS σ) (_MIN_LEN σ) v (dictionary_file σ) (random_draws σ).
Definition set_random_draws (v : list nat) (σ : world) :=
  World (_ANAGRAM_MAP σ) (_BUCKET_WORDS σ) (_MIN_LEN σ) (_MAX_LEN σ) (dictionary_file σ) v.

(** A computation runs in a world and leaves a world, also when it raises. *)
Definition M (A : Type) : Type := world → result A * world.

Global Instance M_ret : MRet M := λ A a σ, (Ok a, σ).
Global Instance M_bind : MBind M := λ A B f m σ,
  match m σ with
  | (Ok a, σ') => f a σ'
  | (Raise e, σ') => (Raise e, σ')
  end.

Definition raise {A} (e : exn) : M A := λ σ, (Raise e, σ).
Definition get {A} (field : world → A) : M A := λ σ, (Ok (field σ), σ).
Definition modify (f : world → world) : M () := λ σ, (Ok (), f σ).
Definition lift {A} (r : result A) : M A := λ σ, (r, σ).

(** [for x in l: acc = body(x, acc)] *)
Fixpoint for_each {A S} (l : list A) (acc : S) (body : A → S → M S) : M S :=
  match l with
  | [] => mret acc
  | x :: l' => acc' ← body x acc; for_each l' acc' body
  end.

(** A [for] loop whose body may [return]: [Some v] is the returned value,
    [None] means the loop ran to its end. *)
Fixpoint for_return {A R} (l : list A) (body : A → M (option R)) : M (option R) :=
  match l with
  | [] => mret None
  | x :: l' =>
      r ← body x;
      match r with
      | Some v => mret (Some v)
      | None => for_return l' body
      end
  end.

(** [l[i]] for [i >= 0] *)
Definition getitem {A} (l : list A) (i : nat) : M A :=
  match l !! i with
  | Some a => mret a
  | None => raise IndexError
  end.

(** [l[i], l[j] = l[j], l[i]] with both indices in range *)
Definition swap {A} (i j : nat) (l : list A) : list A :=
  match l !! i, l !! j with
  | Some a, Some b => <[j:=a]> (<[i:=b]> l)
  | _, _ => l
  end.

(** The truth value of [d.get(k)] for a dictionary of lists. *)
Definition truthy {A} (o : option (list A)) : bool :=
  match o with
  | Some (_ :: _) => true
  | _ => false
  end.

(** [d[k].append(x)] on a [defaultdict(list)] *)
Definition dd_append `{Countable K} {A} (d : gmap K (list A)) (k : K) (x : A)
  : gmap K (list A) :=
  <[k := default [] (d !! k) ++ [x]]> d.

(** [d[k]] on a [defaultdict(list)]: a missing key is created. *)
Definition dd_getitem `{Countable K} {A} (d : gmap K (list A)) (k : K)
  : list A * gmap K (list A) :=
  match d !! k with
  | Some v => (v, d)
  | None => ([], <[k := []]> d)
  end.

(** [min(...)] and [max(...)] of a sequence of integers *)
Definition py_min (l : list Z) : M Z :=
  match l with
  | [] => raise (ValueError "min() arg is an empty sequence")
  | x :: l' => mret (foldl Z.min x l')
  end.
Definition py_max (l : list Z) : M Z :=
  match l with
  | [] => raise (ValueError "max() arg is an empty sequence")
  | x :: l' => mret (foldl Z.max x l')
  end.

(** [a // b] *)
Definition floordiv (a b : Z) : M Z :=
  if decide (b = 0) then raise ZeroDivisionError else mret (a / b).

(** *** The [random] module

    [random._randbelow(n)] takes the next draw, reduced to [0..n-1]. *)
Definition randbelow (n : nat) : M nat := λ σ,
  match random_draws σ with
  | [] => (Ok 0%nat, σ)
  | r :: rs => (Ok (r mod n)%nat, set_random_draws rs σ)
  end.

(** [random.shuffle(x)]:
    [for i in reversed(range(1, len(x))): j = randbelow(i + 1); x[i], x[j] = x[j], x[i]] *)
Definition shuffle {A} (x : list A) : M (list A) :=
  for_each (rev (seq 1 (length x - 1))) x
    (λ i x, j ← randbelow (S i); mret (swap i j x)).

(** [random.choice(seq)] *)
Definition choice {A} (s : list A) : M A :=
  match s with
  | [] => raise IndexError
  | _ => i ← randbelow (length s); getitem s i
  end.

(** ** The functions of [anagram.py] *)

Definition is_vowel (ch : ascii) : bool := bool_decide (ch ∈ _VOWELS).

Definition not_found_msg : string :=
  "Required dictionary file not found. This module requires sowpods.txt to be present.".
Definition empty_file_msg : string := "Dictionary file is empty".
Definition no_buckets_msg : string := "No words available to create difficulty buckets".
Definition not_initialized_msg : string := "Dictionary not initialized".
Definition bad_difficulty_msg : string := "difficulty must be an int from 1 to 5".
Definition no_vowels_msg : string :=
  "No words with vowels in this difficulty bucket; cannot generate unsolvable puzzle".
Definition exhausted_msg : string :=
  "Failed to generate an unsolvable puzzle: all vowel mutations for this difficulty level are valid dictionary words".

(** The body of the loop over the lines of the file. *)
Definition load_line (words : list string) (line : string) : list string :=
  let w := Py.strip line in
  if decide (w = EmptyString) then words else words ++ [Py.lower w].

Definition _load_words : M (list string) :=
  file ← get dictionary_file;
  match file with
  | None => raise (FileNotFoundError not_found_msg)
  | Some lines =>
      let words := foldl load_line [] lines in
      match words with
      | [] => raise (ValueError empty_file_msg)
      | _ => mret words
      end
  end.

Definition _difficulty_for_length (length : Z) : M Z :=
  min_len ← get _MIN_LEN;
  max_len ← get _MAX_LEN;
  match min_len, max_len with
  | Some min_len, Some max_len =>
      if decide (max_len = min_len) then mret 3
      else
        let span := (max_len - min_len) + 1 in
        idx ← floordiv ((length - min_len) * 5) span;
        mret (Z.max 1 (Z.min 5 (idx + 1)))
  | _, _ => raise (RuntimeError not_initialized_msg)
  end.

(** The inner loop of the fallback fill: the first non-empty bucket at
    distance [delta], the one below before the one above. *)
Fixpoint find_nearest (bucket_words : gmap Z (list string)) (d : Z)
    (deltas : list Z) : option Z :=
  match deltas with
  | [] => None
  | delta :: deltas' =>
      if truthy (bucket_words !! (d - delta)) then Some (d - delta)
      else if truthy (bucket_words !! (d + delta)) then Some (d + delta)
      else find_nearest bucket_words d deltas'
  end.

(** The body of [for d in range(1, 6)]. *)
Definition fill_bucket (d : Z) (bucket_words : gmap Z (list string))
  : M (gmap Z (list string)) :=
  if truthy (bucket_words !! d) then mret bucket_words
  else
    match find_nearest bucket_words d [1; 2; 3; 4] with
    | None => raise (RuntimeError no_buckets_msg)
    | Some nearest =>
        let '(v, bucket_words) := dd_getitem bucket_words nearest in
        mret (<[d := v]> bucket_words)
    end.

(** The body of [for w in words]. *)
Definition index_word (w : string)
    (maps : gmap string (list string) * gmap Z (list string))
  : M (gmap string (list string) * gmap Z (list string)) :=
  let sig := _signature w in
  let anagram_map := dd_append maps.1 sig w in
  d ← _difficulty_for_length (Py.len w);
  mret (anagram_map, dd_append maps.2 d w).

Definition initialized (σ : world) : bool :=
  bool_decide (_ANAGRAM_MAP σ ≠ None) && bool_decide (_BUCKET_WORDS σ ≠ None).

Definition _init : M () :=
  built ← get initialized;
  if built : bool then mret ()
  else
    words ← _load_words;
    min_len ← py_min (Py.len <$> words);
    modify (set_MIN_LEN (Some min_len));;
    max_len ← py_max (Py.len <$> words);
    modify (set_MAX_LEN (Some max_len));;
    maps ← for_each words (∅, ∅) index_word;
    bucket_words ← for_each [1; 2; 3; 4; 5] maps.2 fill_bucket;
    modify (set_ANAGRAM_MAP (Some maps.1));;
    modify (set_BUCKET_WORDS (Some bucket_words)).

Definition empty_error (name : string) : exn :=
  ValueError (name +:+ " cannot be empty").
Definition alphabetic_error (name : string) : exn :=
  ValueError (name +:+ " must contain only alphabetic characters").

Definition _validate_input (s name : string) : result string :=
  let normalized := Py.lower (Py.strip s) in
  if decide (normalized = EmptyString) then Raise (empty_error name)
  else if negb (Py.isalpha normalized) then Raise (alphabetic_error name)
  else Ok normalized.

(** [assert x is not None] *)
Definition assert_set {A} (field : world → option A) : M A :=
  v ← get field;
  match v with
  | Some a => mret a
  | None => raise AssertionError
  end.

Definition solve (puzzle : string) : M (list string) :=
  _init;;
  anagram_map ← assert_set _ANAGRAM_MAP;
  puzzle_norm ← lift (_validate_input puzzle "puzzle");
  let sig := _signature puzzle_norm in
  mret (default [] (anagram_map !! sig)).

Definition verify (puzzle answer : string) : M bool :=
  _init;;
  anagram_map ← assert_set _ANAGRAM_MAP;
  puzzle_norm ← lift (_validate_input puzzle "puzzle");
  answer_norm ← lift (_validate_input answer "answer");
  let puzzle_sig := _signature puzzle_norm in
  let answer_sig := _signature answer_norm in
  if decide (puzzle_sig ≠ answer_sig) then mret false
  else mret (bool_decide (answer_norm ∈ default [] (anagram_map !! puzzle_sig))).

(** The two nested loops of [_shuffle_not_identity]: the first pair of
    shuffled positions that hold different letters is swapped. *)
Definition swap_first_distinct (letters : list ascii) (indices : list nat)
  : M (option string) :=
  let n := length letters in
  for_return (seq 0 (n - 1)) (λ i,
    idx1 ← getitem indices i;
    for_return (seq (i + 1) (n - (i + 1))) (λ j,
      idx2 ← getitem indices j;
      a ← getitem letters idx1;
      b ← getitem letters idx2;
      if decide (a ≠ b) then mret (Some (Py.join (swap idx1 idx2 letters)))
      else mret None)).

Definition _shuffle_not_identity (word : string) : M string :=
  letters ← shuffle (Py.chars word);
  let candidate := Py.join letters in
  if decide (candidate ≠ word) then mret candidate
  else
    indices ← shuffle (seq 0 (length letters));
    swapped ← swap_first_distinct letters indices;
    match swapped with
    | Some s => mret s
    | None => mret candidate
    end.

(** [enumerate(l)] *)
Definition enumerate {A} (l : list A) : list (nat * A) := zip (seq 0 (length l)) l.

(** The generator [_single_vowel_mutations], as the list of what it
    yields. [letters[pos]] is always in range: [pos] comes from
    [enumerate(letters)]. *)
Definition _single_vowel_mutations (word : string) : list string :=
  let letters := Py.chars word in
  let vowel_positions := (filter (λ p, is_vowel p.2 = true) (enumerate letters)).*1 in
  pos ← vowel_positions;
  match letters !! pos with
  | None => []
  | Some current =>
      v ← Py.chars "aeiou";
      if decide (v = current) then []
      else [Py.join (<[pos := v]> letters)]
  end.

Definition _generate_unsolvable_from_words (words : list string) : M string :=
  anagram_map ← assert_set _ANAGRAM_MAP;
  let words_with_vowels := filter (λ w, existsb is_vowel (Py.chars w) = true) words in
  match words_with_vowels with
  | [] => raise (RuntimeError no_vowels_msg)
  | _ =>
      shuffled_words ← shuffle words_with_vowels;
      found ← for_return shuffled_words (λ base,
        for_return (_single_vowel_mutations base) (λ mutated,
          let sig := _signature mutated in
          if decide (anagram_map !! sig = None)
          then p ← _shuffle_not_identity mutated; mret (Some p)
          else mret None));
      match found with
      | Some p => mret p
      | None => raise (RuntimeError exhausted_msg)
      end
  end.

(** [d[k]] on a plain [dict] *)
Definition dict_getitem `{Countable K} {A} (d : gmap K A) (k : K) : M A :=
  match d !! k with
  | Some v => mret v
  | None => raise KeyError
  end.

Definition generate_puzzle (difficulty : option Z) (unsolvable : bool) : M string :=
  _init;;
  bucket_words ← assert_set _BUCKET_WORDS;
  difficulty ← match difficulty with
               | None => choice [1; 2; 3; 4; 5]
               | Some d => mret d
               end;
  if negb (bool_decide (difficulty ∈ [1; 2; 3; 4; 5]))
  then raise (ValueError bad_difficulty_msg)
  else
    words ← dict_getitem bucket_words difficulty;
    if negb unsolvable then
      base ← choice words;
      _shuffle_not_identity base
    else _generate_unsolvable_from_words words.

(** The result of a computation, without the world it leaves. *)
Definition run {A} (m : M A) (σ : world) : result A := (m σ).1.

Definition no_space (l : list ascii) : Prop := Forall (λ c, Py.isspace c = false) l.

(** What [strip] leaves starts and ends with a character that is no
    white space. *)
Definition stripped (l : list ascii) : Prop :=
  (∀ c l', l = c :: l' → Py.isspace c = false) ∧
  (∀ c l', l = l' ++ [c] → Py.isspace c = false).

(** The words of a file: each line stripped, the blank ones left out, the
    rest in lower case. *)
Definition loaded_words (lines : list string) : list string :=
  Py.lower <$> filter (λ w, w ≠ EmptyString) (Py.strip <$> lines).

(** ** What initialization builds, as functions of the word list *)

(** The Signature Index: every word appended to the class of its own
    signature. *)
Definition anagram_index (words : list string) : gmap string (list string) :=
  foldl (λ m w, dd_append m (_signature w) w) ∅ words.

(** The value [_difficulty_for_length] computes once the two global
    lengths are set. *)
Definition difficulty (min_len max_len length : Z) : Z :=
  if decide (max_len = min_len) then 3
  else Z.max 1 (Z.min 5 ((length - min_len) * 5 / ((max_len - min_len) + 1) + 1)).

Definition min_length (words : list string) : Z :=
  match Py.len <$> words with
  | [] => 0
  | x :: l => foldl Z.min x l
  end.
Definition max_length (words : list string) : Z :=
  match Py.len <$> words with
  | [] => 0
  | x :: l => foldl Z.max x l
  end.

(** The buckets of the length rule, before the fallback fill. *)
Definition length_buckets (words : list string) : gmap Z (list string) :=
  foldl (λ m w, dd_append m (difficulty (min_length words) (max_length words) (Py.len w)) w)
    ∅ words.

(** One round of the fallback fill when a non-empty bucket is in reach. *)
Definition filled (d : Z) (bucket_words : gmap Z (list string))
  : gmap Z (list string) :=
  if truthy (bucket_words !! d) then bucket_words
  else
    match find_nearest bucket_words d [1; 2; 3; 4] with
    | None => bucket_words
    | Some nearest => <[d := default [] (bucket_words !! nearest)]> bucket_words
    end.

(** The buckets after the fallback fill. *)
Definition buckets_of (words : list string) : gmap Z (list string) :=
  foldl (λ m d, filled d m) (length_buckets words) [1; 2; 3; 4; 5].

(** The world in which a first call has built the index from [words]. *)
Definition built_from (words : list string) (σ : world) : world :=
  World (Some (anagram_index words)) (Some (buckets_of words))
        (Some (min_length words)) (Some (max_length words))
        (dictionary_file σ) (random_draws σ).

(** [serves σ words]: in the world [σ] the public functions answer from the
    dictionary [words], either because the index was built from it or
    because the first call is going to load it. *)
Inductive serves : world → list string → Prop :=
| serves_lazy σ lines :
    initialized σ = false →
    dictionary_file σ = Some lines →
    loaded_words lines ≠ [] →
    serves σ (loaded_words lines)
| serves_built σ lines :
    loaded_words lines ≠ [] →
    _ANAGRAM_MAP σ = Some (anagram_index (loaded_words lines)) →
    _BUCKET_WORDS σ = Some (buckets_of (loaded_words lines)) →
    serves σ (loaded_words lines).

(** ** The spec's wording of the difficulty rule and of the fallback fill *)

Definition clamp (x lo hi : Z) : Z := Z.max lo (Z.min hi x).

Definition spec_difficulty (minLen maxLen L : Z) : Z :=
  if decide (maxLen = minLen) then 3
  else
    let span := maxLen - minLen + 1 in
    let idx := (L - minLen) * 5 / span in
    clamp (idx + 1) 1 5.

(** The buckets the search looks at, in its order: for delta = 1,2,3,4
    first d - delta, then d + delta. *)
Definition spec_candidates (d : Z) : list Z :=
  [d - 1; d + 1; d - 2; d + 2; d - 3; d + 3; d - 4; d + 4].

Definition spec_nearest (bucket_words : gmap Z (list string)) (d : Z) : option Z :=
  head (filter (λ k, truthy (bucket_words !! k) = true) (spec_candidates d)).

(** Some bucket 1..5 holds a word. *)
Definition some_bucket (bucket_words : gmap Z (list string)) : Prop :=
  ∃ k, 1 ≤ k ≤ 5 ∧ truthy (bucket_words !! k) = true.

(** ** Vocabulary of the statements *)

(** The line feed that ends a line of the file. *)
Definition newline : string := String "010"%char EmptyString.

(** A code point of the ASCII range. *)
Definition is_ascii (c : ascii) : bool := (Py.ord c <? 128)%N.

(** All characters are letters in the sense of [str.isalpha]. *)
Definition alphabetic (s : string) : Prop :=
  Forall (λ c, Py.isalpha_char c = true) (Py.chars s).

(** Every line of the file is blank. *)
Definition all_blank (lines : list string) : Prop :=
  Forall (λ line, Py.strip line = EmptyString) lines.

(** Two worlds with the same module globals and the same file: only the
    random draws may differ. *)
Definition same_globals (σ σ' : world) : Prop :=
  _ANAGRAM_MAP σ' = _ANAGRAM_MAP σ ∧ _BUCKET_WORDS σ' = _BUCKET_WORDS σ
  ∧ _MIN_LEN σ' = _MIN_LEN σ ∧ _MAX_LEN σ' = _MAX_LEN σ
  ∧ dictionary_file σ' = dictionary_file σ.

(** The string holds at least two different characters. *)
Definition distinct_chars (s : string) : Prop :=
  ∃ a b, a ∈ Py.chars s ∧ b ∈ Py.chars s ∧ a ≠ b.

(** [m] is [w] with the vowel at one position replaced by another vowel. *)
Definition vowel_mutation (w m : string) : Prop :=
  ∃ pos current v,
    Py.chars w !! pos = Some current ∧ is_vowel current = true
    ∧ is_vowel v = true ∧ v ≠ current
    ∧ Py.chars m = <[pos := v]> (Py.chars w).

(** One round of the fallback fill in the spec's words. *)
Definition spec_fill (d : Z) (bucket_words : gmap Z (list string))
  : gmap Z (list string) :=
  if truthy (bucket_words !! d) then bucket_words
  else
    match spec_nearest bucket_words d with
    | None => bucket_words
    | Some nearest => <[d := default [] (bucket_words !! nearest)]> bucket_words
    end.

(** The worlds the module can be in: fresh after import, then changed by
    calls of its functions and, between calls, by whatever happens to the
    file and the random generator. *)
Inductive reachable : world → Prop :=
| reach_fresh file draws : reachable (fresh file draws)
| reach_outside σ file draws :
    reachable σ →
    reachable (World (_ANAGRAM_MAP σ) (_BUCKET_WORDS σ) (_MIN_LEN σ) (_MAX_LEN σ)
                     file draws)
| reach_init σ : reachable σ → reachable (_init σ).2
| reach_solve σ puzzle : reachable σ → reachable (solve puzzle σ).2
| reach_verify σ puzzle answer : reachable σ → reachable (verify puzzle answer σ).2
| reach_generate σ difficulty unsolvable :
    reachable σ → reachable (generate_puzzle difficulty unsolvable σ).2.

(** The answer of [solve] in a world that serves [words]. *)
Definition solve_answer (words : list string) (puzzle : string)
  : result (list string) :=
  match _validate_input puzzle "puzzle" with
  | Raise e => Raise e
  | Ok puzzle_norm =>
      Ok (filter (λ w, _signature w = _signature puzzle_norm) words)
  end.

(** The answer of [verify] in a world that serves [words]. *)
Definition verify_answer (words : list string) (puzzle answer : string)
  : result bool :=
  match _validate_input puzzle "puzzle" with
  | Raise e => Raise e
  | Ok puzzle_norm =>
      match _validate_input answer "answer" with
      | Raise e => Raise e
      | Ok answer_norm =>
          Ok (bool_decide (_signature puzzle_norm = _signature answer_norm)
              && bool_decide (answer_norm ∈ words))
      end
  end.

Global Instance alphabetic_dec s : Decision (alphabetic s).
Proof. unfold alphabetic. apply _. Defined.

(** A small word list file, with a capital, a blank line and padding. *)
Definition sample_file : list string :=
  ["Dog" +:+ newline; newline; "  god " +:+ newline; "cat" +:+ newline;
   "act" +:+ newline; "a" +:+ newline; "banana" +:+ newline;
   "elephants" +:+ newline; "idea"].

Definition sample_words : list string :=
  ["dog"; "god"; "cat"; "act"; "a"; "banana"; "elephants"; "idea"].

(** A computation that leaves the module globals and the file as they
    are, whatever it returns or raises. *)
Definition frames {A} (m : M A) : Prop := ∀ σ, same_globals σ (m σ).2.

(** The index and the buckets are either both unset or both set. *)
Definition consistent (σ : world) : Prop :=
  (_ANAGRAM_MAP σ = None ∧ _BUCKET_WORDS σ = None) ∨ initialized σ = true.

(** Every word a bucket holds is a word of [words]. *)
Definition within (words : list string) (m : gmap Z (list string)) : Prop :=
  ∀ k l w, m !! k = Some l → w ∈ l → w ∈ words.

(** The world after something outside the module replaced the file and
    the state of the random generator. *)
Definition outside (file : option (list string)) (draws : list nat) (σ : world)
  : world :=
  World (_ANAGRAM_MAP σ) (_BUCKET_WORDS σ) (_MIN_LEN σ) (_MAX_LEN σ) file draws.

(** ** Facts about characters and strings *)

Ltac by_cases_on_char c :=
  destruct c as [[] [] [] [] [] [] [] []]; vm_compute; try reflexivity;
  try discriminate; try tauto; try (intros; discriminate).

Lemma lower_char_idemp c : Py.lower_char (Py.lower_char c) = Py.lower_char c.
Proof. by_cases_on_char c. Qed.

Lemma isspace_lower_char c : Py.isspace (Py.lower_char c) = Py.isspace c.
Proof. by_cases_on_char c. Qed.

Lemma isalpha_char_lower c : Py.isalpha_char (Py.lower_char c) = Py.isalpha_char c.
Proof. by_cases_on_char c. Qed.

Lemma isalpha_not_space c : Py.isalpha_char c = true → Py.isspace c = false.
Proof. by_cases_on_char c. Qed.

Lemma a_to_z_isalpha c : Py.is_a_to_z c = true → Py.isalpha_char c = true.
Proof. by_cases_on_char c. Qed.

Lemma a_to_z_lower c : Py.is_a_to_z c = true → Py.lower_char c = c.
Proof. by_cases_on_char c. Qed.

Lemma ord_inj a b : Py.ord a = Py.ord b → a = b.
Proof.
  unfold Py.ord. intros E.
  rewrite <- (ascii_N_embedding a), <- (ascii_N_embedding b). by rewrite E.
Qed.

Global Instance char_le_total : Total Py.char_le.
Proof. intros a b. unfold Py.char_le. lia. Qed.
Global Instance char_le_trans : Transitive Py.char_le.
Proof. intros a b c. unfold Py.char_le. lia. Qed.
Global Instance char_le_antisymm : AntiSymm (=) Py.char_le.
Proof. intros a b H1 H2. apply ord_inj. unfold Py.char_le in *. lia. Qed.

Lemma join_chars s : Py.join (Py.chars s) = s.
Proof. apply string_of_list_ascii_of_string. Qed.

Lemma chars_join l : Py.chars (Py.join l) = l.
Proof. apply list_ascii_of_string_of_list_ascii. Qed.

Lemma chars_inj s t : Py.chars s = Py.chars t → s = t.
Proof. intros E. rewrite <- (join_chars s), <- (join_chars t). by rewrite E. Qed.

Lemma join_inj l k : Py.join l = Py.join k → l = k.
Proof. intros E. rewrite <- (chars_join l), <- (chars_join k). by rewrite E. Qed.

Lemma chars_empty s : Py.chars s = [] ↔ s = EmptyString.
Proof.
  split; [|by intros ->]. intros E. apply chars_inj. by rewrite E.
Qed.

(** *** Signatures *)

Example signature_dgo : _signature "dgo" = "dgo"%string.
Proof. reflexivity. Qed.

Example signature_god : _signature "god" = _signature "dog".
Proof. reflexivity. Qed.


Lemma sorted_Permutation l : Py.sorted l ≡ₚ l.
Proof. apply merge_sort_Permutation. Qed.

Lemma sorted_Sorted l : Sorted Py.char_le (Py.sorted l).
Proof. apply (Sorted_merge_sort Py.char_le). Qed.

Lemma sorted_eq_iff l k : Py.sorted l = Py.sorted k ↔ l ≡ₚ k.
Proof.
  split.
  - intros E. rewrite <- (sorted_Permutation l), E. apply sorted_Permutation.
  - intros P. apply (Sorted_unique Py.char_le); [apply sorted_Sorted..|].
    by rewrite !sorted_Permutation.
Qed.

(** Two strings have one signature exactly when they are anagrams. *)
Lemma signature_eq_iff s t :
  _signature s = _signature t ↔ Py.chars s ≡ₚ Py.chars t.
Proof.
  unfold _signature. rewrite <- sorted_eq_iff. split.
  - apply join_inj.
  - by intros ->.
Qed.

Lemma chars_signature s : Py.chars (_signature s) ≡ₚ Py.chars s.
Proof. unfold _signature. rewrite chars_join. apply sorted_Permutation. Qed.

(** *** [strip] and [lower] *)

Lemma lstrip_no_space l : no_space l → Py.lstrip l = l.
Proof. destruct 1 as [|c l Hc _]; simpl; [done|by rewrite Hc]. Qed.

Lemma rstrip_no_space l : no_space l → Py.rstrip l = l.
Proof.
  intros H. unfold Py.rstrip. rewrite lstrip_no_space, rev_involutive; [done|].
  by apply Forall_rev.
Qed.

Lemma strip_no_space s : no_space (Py.chars s) → Py.strip s = s.
Proof.
  intros H. unfold Py.strip.
  rewrite lstrip_no_space, rstrip_no_space by done. apply join_chars.
Qed.

Lemma lstrip_head l c l' : Py.lstrip l = c :: l' → Py.isspace c = false.
Proof.
  induction l as [|a l IH]; simpl; [done|].
  destruct (Py.isspace a) eqn:E; [done|]. by intros [= <- _].
Qed.

Lemma lstrip_suffix l : ∃ k, l = k ++ Py.lstrip l.
Proof.
  induction l as [|a l [k IH]]; simpl; [by exists []|].
  destruct (Py.isspace a); [|by exists []].
  exists (a :: k). simpl. by f_equal.
Qed.

Lemma lstrip_idemp l : Py.lstrip (Py.lstrip l) = Py.lstrip l.
Proof.
  destruct (Py.lstrip l) as [|c l'] eqn:E; [done|].
  apply lstrip_head in E. simpl. by rewrite E.
Qed.

Lemma lstrip_last l c l' :
  (∀ k, l = k ++ [c] → Py.isspace c = false) →
  Py.lstrip l = l' ++ [c] → Py.isspace c = false.
Proof.
  intros H E. destruct (lstrip_suffix l) as [k Hk].
  apply (H (k ++ l')). rewrite Hk at 1. rewrite E. by rewrite app_assoc.
Qed.

Lemma rstrip_last l c l' : Py.rstrip l = l' ++ [c] → Py.isspace c = false.
Proof.
  unfold Py.rstrip. intros E.
  apply (f_equal (@rev _)) in E. rewrite rev_involutive, rev_app_distr in E.
  simpl in E. by apply lstrip_head in E.
Qed.

Lemma rstrip_prefix l : ∃ k, l = Py.rstrip l ++ k.
Proof.
  unfold Py.rstrip. destruct (lstrip_suffix (rev l)) as [k Hk].
  exists (rev k). rewrite <- rev_app_distr, <- Hk. by rewrite rev_involutive.
Qed.

Lemma rstrip_head l c l' :
  (∀ k, l = c :: k → Py.isspace c = false) →
  Py.rstrip l = c :: l' → Py.isspace c = false.
Proof.
  intros H E. destruct (rstrip_prefix l) as [k Hk].
  apply (H (l' ++ k)). rewrite Hk at 1. by rewrite E.
Qed.

Lemma stripped_strip l : stripped (Py.rstrip (Py.lstrip l)).
Proof.
  split; intros c l' E.
  - eapply rstrip_head; [|done]. intros k. apply lstrip_head.
  - by eapply rstrip_last.
Qed.

Lemma stripped_fixed l : stripped l → Py.rstrip (Py.lstrip l) = l.
Proof.
  intros [Hh Hl].
  assert (Py.lstrip l = l) as ->.
  { destruct l as [|c l']; [done|]. simpl. by rewrite (Hh c l'). }
  unfold Py.rstrip. destruct (rev l) as [|c k] eqn:E.
  - by rewrite <- (rev_involutive l), E.
  - simpl. rewrite (Hl c (rev k)).
    + by rewrite <- E, rev_involutive.
    + rewrite <- (rev_involutive l), E. done.
Qed.

Lemma stripped_lower l : stripped l → stripped (map Py.lower_char l).
Proof.
  intros [Hh Hl]. split; intros c l' E.
  - destruct l as [|a k]; [done|]. simpl in E. injection E as <- _.
    rewrite isspace_lower_char. by apply (Hh a k).
  - destruct (rev l) as [|a k] eqn:Er.
    + apply (f_equal (@rev _)) in Er. rewrite rev_involutive in Er.
      subst l. by destruct l'.
    + assert (l = rev k ++ [a]) as El.
      { by rewrite <- (rev_involutive l), Er. }
      rewrite El, map_app in E. simpl in E.
      apply app_inj_tail in E as [_ <-].
      rewrite isspace_lower_char. by apply (Hl a (rev k)).
Qed.

Lemma chars_lower s : Py.chars (Py.lower s) = map Py.lower_char (Py.chars s).
Proof. unfold Py.lower. apply chars_join. Qed.

Lemma chars_strip s : Py.chars (Py.strip s) = Py.rstrip (Py.lstrip (Py.chars s)).
Proof. unfold Py.strip. apply chars_join. Qed.

Lemma lower_idemp s : Py.lower (Py.lower s) = Py.lower s.
Proof.
  apply chars_inj. rewrite !chars_lower, map_map.
  apply map_ext. intros c. apply lower_char_idemp.
Qed.

Lemma lower_empty s : Py.lower s = EmptyString ↔ s = EmptyString.
Proof.
  rewrite <- !chars_empty, chars_lower. by destruct (Py.chars s).
Qed.

Lemma strip_lower_strip s : Py.strip (Py.lower (Py.strip s)) = Py.lower (Py.strip s).
Proof.
  apply chars_inj. rewrite chars_strip, chars_lower, chars_strip.
  apply stripped_fixed, stripped_lower, stripped_strip.
Qed.

(** *** The loader *)

Lemma foldl_load_line words lines :
  foldl load_line words lines = words ++ loaded_words lines.
Proof.
  revert words. induction lines as [|line lines IH]; intros words; simpl.
  - by rewrite app_nil_r.
  - rewrite IH. unfold load_line, loaded_words. simpl.
    rewrite filter_cons. destruct (decide (Py.strip line = EmptyString)).
    + by rewrite decide_False by tauto.
    + rewrite decide_True by done. simpl. by rewrite <- app_assoc.
Qed.

Lemma load_words_eq σ :
  _load_words σ =
  (match dictionary_file σ with
   | None => Raise (FileNotFoundError not_found_msg)
   | Some lines =>
       match loaded_words lines with
       | [] => Raise (ValueError empty_file_msg)
       | words => Ok words
       end
   end, σ).
Proof.
  unfold _load_words, mbind, M_bind, get, raise, mret, M_ret.
  destruct (dictionary_file σ) as [lines|]; [|done].
  rewrite foldl_load_line. simpl. by destruct (loaded_words lines).
Qed.

Lemma loaded_word_shape lines w :
  w ∈ loaded_words lines →
  w ≠ EmptyString ∧ Py.lower w = w ∧ Py.strip w = w.
Proof.
  unfold loaded_words. intros (v & -> & Hv)%list_elem_of_fmap.
  apply list_elem_of_filter in Hv as [Hne (line & -> & _)%list_elem_of_fmap].
  split_and!.
  - by rewrite lower_empty.
  - apply lower_idemp.
  - apply strip_lower_strip.
Qed.

(** ** Running computations *)

Lemma bind_run {A B} (m : M A) (f : A → M B) σ :
  (m ≫= f) σ =
  match m σ with
  | (Ok a, σ') => f a σ'
  | (Raise e, σ') => (Raise e, σ')
  end.
Proof. reflexivity. Qed.

Lemma bind_ok {A B} (m : M A) (f : A → M B) σ a σ' :
  m σ = (Ok a, σ') → (m ≫= f) σ = f a σ'.
Proof. intros E. by rewrite bind_run, E. Qed.

Lemma bind_raise {A B} (m : M A) (f : A → M B) σ e σ' :
  m σ = (Raise e, σ') → (m ≫= f) σ = (Raise e, σ').
Proof. intros E. by rewrite bind_run, E. Qed.

(** A loop whose body neither raises nor touches the world is a fold, as
    long as an invariant of the accumulator holds. *)
Lemma for_each_pure {A S} (I : S → Prop) (g : A → S → S) (body : A → S → M S)
    l acc σ :
  I acc →
  (∀ x a, x ∈ l → I a → body x a σ = (Ok (g x a), σ) ∧ I (g x a)) →
  for_each l acc body σ = (Ok (foldl (λ a x, g x a) acc l), σ)
  ∧ I (foldl (λ a x, g x a) acc l).
Proof.
  revert acc. induction l as [|x l IH]; intros acc Hacc Hb; simpl; [done|].
  destruct (Hb x acc) as [Hrun Hinv]; [left|done|].
  erewrite bind_ok by exact Hrun.
  apply IH; [done|]. intros y a Hy. apply Hb. by right.
Qed.

Lemma foldl_pair {A B C} (f : A → C → A) (h : B → C → B) a b (l : list C) :
  foldl (λ p x, (f p.1 x, h p.2 x)) (a, b) l = (foldl f a l, foldl h b l).
Proof. revert a b. induction l as [|x l IH]; intros a b; simpl; [done|apply IH]. Qed.

(** *** Lengths and difficulty *)

Lemma foldl_min_le x l : foldl Z.min x l ≤ x ∧ Forall (λ y, foldl Z.min x l ≤ y) l.
Proof.
  revert x. induction l as [|y l IH]; intros x; simpl; [split; [lia|constructor]|].
  destruct (IH (Z.min x y)) as [H1 H2]. split; [lia|].
  constructor; [lia|done].
Qed.

Lemma foldl_max_ge x l : x ≤ foldl Z.max x l ∧ Forall (λ y, y ≤ foldl Z.max x l) l.
Proof.
  revert x. induction l as [|y l IH]; intros x; simpl; [split; [lia|constructor]|].
  destruct (IH (Z.max x y)) as [H1 H2]. split; [lia|].
  constructor; [lia|done].
Qed.

Lemma length_bounds words w :
  w ∈ words → min_length words ≤ Py.len w ≤ max_length words.
Proof.
  intros Hw. unfold min_length, max_length.
  assert (Py.len w ∈ Py.len <$> words) as Hl by by apply list_elem_of_fmap_2.
  destruct (Py.len <$> words) as [|x l]; [by apply elem_of_nil in Hl|].
  destruct (foldl_min_le x l) as [H1 H2], (foldl_max_ge x l) as [H3 H4].
  rewrite Forall_forall in H2, H4.
  apply elem_of_cons in Hl as [->|Hl]; [lia|].
  split; [by apply H2|by apply H4].
Qed.

Lemma min_le_max words : words ≠ [] → min_length words ≤ max_length words.
Proof.
  destruct words as [|w words]; [done|]. intros _.
  assert (w ∈ w :: words) as Hw by left.
  apply length_bounds in Hw. lia.
Qed.

Lemma difficulty_run σ min_len max_len length :
  _MIN_LEN σ = Some min_len → _MAX_LEN σ = Some max_len → min_len ≤ max_len →
  _difficulty_for_length length σ = (Ok (difficulty min_len max_len length), σ).
Proof.
  intros Hmin Hmax Hle.
  unfold _difficulty_for_length, difficulty, floordiv, get.
  rewrite !bind_run, Hmin, Hmax.
  destruct (decide (max_len = min_len)); [done|].
  rewrite decide_False by lia. done.
Qed.

Lemma difficulty_range min_len max_len length :
  min_len ≤ max_len → 1 ≤ difficulty min_len max_len length ≤ 5.
Proof. intros H. unfold difficulty. case_decide; lia. Qed.

Lemma difficulty_mono min_len max_len l1 l2 :
  min_len ≤ max_len → l1 ≤ l2 →
  difficulty min_len max_len l1 ≤ difficulty min_len max_len l2.
Proof.
  intros H Hl. unfold difficulty. case_decide; [lia|].
  assert ((l1 - min_len) * 5 / (max_len - min_len + 1)
          ≤ (l2 - min_len) * 5 / (max_len - min_len + 1)).
  { apply Z.div_le_mono; lia. }
  lia.
Qed.

Lemma spec_difficulty_eq min_len max_len length :
  spec_difficulty min_len max_len length = difficulty min_len max_len length.
Proof. reflexivity. Qed.

Lemma filter_none {A} (P : A → Prop) `{∀ x, Decision (P x)} (l : list A) :
  (∀ x, x ∈ l → ¬ P x) → filter P l = [].
Proof.
  intros Hn. destruct (filter P l) as [|x k] eqn:E; [done|].
  assert (x ∈ filter P l) as Hx by (rewrite E; left).
  apply list_elem_of_filter in Hx as [HP Hx]. by destruct (Hn x Hx).
Qed.

(** *** Grouping words under a key *)

Section grouping.
Context `{Countable K} {A : Type} (key : A → K).

Lemma group_lookup (m : gmap K (list A)) (l : list A) (k : K) :
  foldl (λ m w, dd_append m (key w) w) m l !! k =
  match filter (λ w, key w = k) l with
  | [] => m !! k
  | ws => Some (default [] (m !! k) ++ ws)
  end.
Proof.
  revert m. induction l as [|w l IH]; intros m; simpl; [done|].
  rewrite IH, filter_cons. unfold dd_append.
  destruct (decide (key w = k)) as [->|Hne].
  - rewrite lookup_insert_eq. simpl.
    destruct (filter _ l); [done|]. by rewrite <- app_assoc.
  - by rewrite lookup_insert_ne.
Qed.

Lemma group_lookup_empty (l : list A) (k : K) :
  default [] (foldl (λ m w, dd_append m (key w) w) ∅ l !! k)
  = filter (λ w, key w = k) l.
Proof.
  rewrite group_lookup, lookup_empty. by destruct (filter _ l).
Qed.

Lemma group_lookup_None (l : list A) (k : K) :
  foldl (λ m w, dd_append m (key w) w) ∅ l !! k = None
  ↔ filter (λ w, key w = k) l = [].
Proof.
  rewrite group_lookup, lookup_empty. by destruct (filter _ l).
Qed.

Lemma group_truthy (l : list A) (k : K) :
  truthy (foldl (λ m w, dd_append m (key w) w) ∅ l !! k) = true
  ↔ ∃ w, w ∈ l ∧ key w = k.
Proof.
  rewrite group_lookup, lookup_empty.
  destruct (filter _ l) as [|w ws] eqn:E; simpl.
  - split; [done|]. intros (w & Hw & Hk).
    assert (w ∈ filter (λ w, key w = k) l) as Hin by by apply list_elem_of_filter.
    rewrite E in Hin. by apply elem_of_nil in Hin.
  - split; [|done]. intros _. exists w.
    assert (w ∈ filter (λ w, key w = k) l) as Hin by (rewrite E; left).
    apply list_elem_of_filter in Hin. tauto.
Qed.
End grouping.

Lemma anagram_index_lookup words sig :
  default [] (anagram_index words !! sig)
  = filter (λ w, _signature w = sig) words.
Proof. apply (group_lookup_empty _signature). Qed.

Lemma anagram_index_None words sig :
  anagram_index words !! sig = None
  ↔ filter (λ w, _signature w = sig) words = [].
Proof. apply (group_lookup_None _signature). Qed.

Lemma length_buckets_lookup words d :
  default [] (length_buckets words !! d)
  = filter (λ w, difficulty (min_length words) (max_length words) (Py.len w) = d) words.
Proof.
  apply (group_lookup_empty
    (λ w, difficulty (min_length words) (max_length words) (Py.len w))).
Qed.

Lemma length_buckets_truthy words d :
  truthy (length_buckets words !! d) = true
  ↔ ∃ w, w ∈ words ∧ difficulty (min_length words) (max_length words) (Py.len w) = d.
Proof.
  apply (group_truthy
    (λ w, difficulty (min_length words) (max_length words) (Py.len w))).
Qed.

(** *** The fallback fill *)

Lemma find_nearest_truthy bucket_words d deltas k :
  find_nearest bucket_words d deltas = Some k →
  truthy (bucket_words !! k) = true.
Proof.
  induction deltas as [|delta deltas IH]; simpl; [done|].
  destruct (truthy (bucket_words !! (d - delta))) eqn:E1; [by intros [= <-]|].
  destruct (truthy (bucket_words !! (d + delta))) eqn:E2; [by intros [= <-]|].
  done.
Qed.

Lemma find_nearest_spec bucket_words d :
  find_nearest bucket_words d [1; 2; 3; 4] = spec_nearest bucket_words d.
Proof.
  unfold spec_nearest, spec_candidates. cbn [find_nearest].
  rewrite !filter_cons, filter_nil.
  repeat match goal with
  | |- (if truthy ?o then _ else _) = _ =>
      destruct (truthy o) eqn:?;
      [rewrite decide_True by done; reflexivity|rewrite decide_False by done]
  end.
  reflexivity.
Qed.

Lemma find_nearest_in_reach bucket_words d :
  1 ≤ d ≤ 5 → some_bucket bucket_words →
  truthy (bucket_words !! d) = false →
  is_Some (find_nearest bucket_words d [1; 2; 3; 4]).
Proof.
  intros Hd (k & Hk & Ht) Hf. cbn [find_nearest].
  repeat match goal with
  | |- is_Some (if truthy ?o then _ else _) =>
      destruct (truthy o) eqn:?; [by eexists|]
  end.
  exfalso.
  assert (k = d ∨ k = d - 1 ∨ k = d + 1 ∨ k = d - 2 ∨ k = d + 2
          ∨ k = d - 3 ∨ k = d + 3 ∨ k = d - 4 ∨ k = d + 4) as Hcases by lia.
  repeat (destruct Hcases as [->|Hcases]; [congruence|]).
  subst k. congruence.
Qed.

Lemma filled_other d k bucket_words :
  k ≠ d → filled d bucket_words !! k = bucket_words !! k.
Proof.
  intros Hne. unfold filled.
  destruct (truthy (bucket_words !! d)); [done|].
  destruct (find_nearest _ _ _); [|done]. by rewrite lookup_insert_ne.
Qed.

Lemma filled_self d bucket_words :
  1 ≤ d ≤ 5 → some_bucket bucket_words →
  truthy (filled d bucket_words !! d) = true.
Proof.
  intros Hd Hsome. unfold filled.
  destruct (truthy (bucket_words !! d)) eqn:Ht; [done|].
  destruct (find_nearest_in_reach bucket_words d Hd Hsome Ht) as [k Hk].
  rewrite Hk, lookup_insert_eq.
  apply find_nearest_truthy in Hk. by destruct (bucket_words !! k) as [[|]|].
Qed.

Lemma filled_keeps d k bucket_words :
  truthy (bucket_words !! k) = true → filled d bucket_words !! k = bucket_words !! k.
Proof.
  intros Ht. destruct (decide (k = d)) as [->|Hne]; [|by apply filled_other].
  unfold filled. by rewrite Ht.
Qed.

Lemma filled_truthy_mono d k bucket_words :
  truthy (bucket_words !! k) = true → truthy (filled d bucket_words !! k) = true.
Proof. intros Ht. by rewrite filled_keeps. Qed.

Lemma filled_some_bucket d bucket_words :
  some_bucket bucket_words → some_bucket (filled d bucket_words).
Proof.
  intros (k & Hk & Ht). exists k. split; [done|]. by rewrite filled_keeps.
Qed.

Lemma fill_bucket_run d bucket_words σ :
  1 ≤ d ≤ 5 → some_bucket bucket_words →
  fill_bucket d bucket_words σ = (Ok (filled d bucket_words), σ).
Proof.
  intros Hd Hsome. unfold fill_bucket, filled.
  destruct (truthy (bucket_words !! d)) eqn:Ht; [done|].
  destruct (find_nearest_in_reach bucket_words d Hd Hsome Ht) as [k Hk].
  rewrite Hk. apply find_nearest_truthy in Hk.
  unfold dd_getitem. by destruct (bucket_words !! k) as [[|]|].
Qed.

Lemma length_buckets_some words : words ≠ [] → some_bucket (length_buckets words).
Proof.
  destruct words as [|w words]; [done|]. intros _.
  set (ws := w :: words).
  exists (difficulty (min_length ws) (max_length ws) (Py.len w)). split.
  - apply difficulty_range, min_le_max. done.
  - apply length_buckets_truthy. exists w. split; [left|done].
Qed.

(** After the fill every bucket 1..5 holds a word. *)
Lemma buckets_of_truthy words d :
  words ≠ [] → 1 ≤ d ≤ 5 → truthy (buckets_of words !! d) = true.
Proof.
  intros Hne Hd. pose proof (length_buckets_some words Hne) as H0.
  unfold buckets_of. cbn [foldl].
  set (b0 := length_buckets words) in *.
  set (b1 := filled 1 b0). set (b2 := filled 2 b1).
  set (b3 := filled 3 b2). set (b4 := filled 4 b3).
  assert (some_bucket b1) as H1 by by apply filled_some_bucket.
  assert (some_bucket b2) as H2 by by apply filled_some_bucket.
  assert (some_bucket b3) as H3 by by apply filled_some_bucket.
  assert (some_bucket b4) as H4 by by apply filled_some_bucket.
  assert (truthy (b1 !! 1) = true) as T1 by by apply filled_self.
  assert (truthy (b2 !! 2) = true) as T2 by by apply filled_self.
  assert (truthy (b3 !! 3) = true) as T3 by by apply filled_self.
  assert (truthy (b4 !! 4) = true) as T4 by by apply filled_self.
  assert (truthy (filled 5 b4 !! 5) = true) as T5 by by apply filled_self.
  assert (d = 1 ∨ d = 2 ∨ d = 3 ∨ d = 4 ∨ d = 5) as Hcases by lia.
  destruct Hcases as [->|[->|[->|[->| ->]]]]; [| | | |done].
  - do 4 apply filled_truthy_mono. exact T1.
  - do 3 apply filled_truthy_mono. exact T2.
  - do 2 apply filled_truthy_mono. exact T3.
  - apply filled_truthy_mono. exact T4.
Qed.

(** *** Initialization *)

Lemma init_done σ : initialized σ = true → _init σ = (Ok (), σ).
Proof. intros H. unfold _init, get. by rewrite bind_run, H. Qed.

Lemma init_load_fails σ e :
  initialized σ = false → run _load_words σ = Raise e → _init σ = (Raise e, σ).
Proof.
  intros H. unfold run. rewrite load_words_eq. simpl. intros E.
  unfold _init, get. rewrite bind_run, H.
  erewrite bind_raise; [done|]. rewrite load_words_eq. by rewrite E.
Qed.

Lemma index_words_run words σ :
  words ≠ [] →
  _MIN_LEN σ = Some (min_length words) → _MAX_LEN σ = Some (max_length words) →
  for_each words (∅, ∅) index_word σ
  = (Ok (anagram_index words, length_buckets words), σ).
Proof.
  intros Hne Hmin Hmax.
  destruct (for_each_pure (λ _, True)
    (λ w (maps : gmap string (list string) * gmap Z (list string)),
       (dd_append maps.1 (_signature w) w,
        dd_append maps.2 (difficulty (min_length words) (max_length words) (Py.len w)) w))
    index_word words (∅, ∅) σ) as [E _]; [done| |].
  - intros w maps _ _. split; [|done]. unfold index_word.
    erewrite bind_ok; [done|].
    apply difficulty_run; [done..|]. by apply min_le_max.
  - rewrite E. f_equal. f_equal.
    apply (foldl_pair (λ m w, dd_append m (_signature w) w)
      (λ m w, dd_append m (difficulty (min_length words) (max_length words) (Py.len w)) w)).
Qed.

Lemma fill_buckets_run words σ :
  words ≠ [] →
  for_each [1; 2; 3; 4; 5] (length_buckets words) fill_bucket σ
  = (Ok (buckets_of words), σ).
Proof.
  intros Hne.
  destruct (for_each_pure some_bucket filled fill_bucket [1; 2; 3; 4; 5]
              (length_buckets words) σ) as [E _]; [| |done].
  - by apply length_buckets_some.
  - intros d bw Hd Hsome. split; [|by apply filled_some_bucket].
    apply fill_bucket_run; [|done].
    repeat (apply elem_of_cons in Hd as [->|Hd]; [lia|]).
    by apply elem_of_nil in Hd.
Qed.

Lemma init_builds σ lines :
  initialized σ = false → dictionary_file σ = Some lines →
  loaded_words lines ≠ [] →
  _init σ = (Ok (), built_from (loaded_words lines) σ).
Proof.
  intros Hinit Hfile Hne. set (words := loaded_words lines) in *.
  unfold _init, get. rewrite bind_run, Hinit.
  assert (_load_words σ = (Ok words, σ)) as Hload.
  { rewrite load_words_eq, Hfile. fold words. by destruct words. }
  erewrite bind_ok by exact Hload.
  assert (py_min (Py.len <$> words) σ = (Ok (min_length words), σ)) as Emin.
  { unfold py_min, min_length. destruct words; [done|]. done. }
  erewrite bind_ok by exact Emin.
  erewrite bind_ok by reflexivity.
  set (σ1 := set_MIN_LEN _ σ).
  assert (py_max (Py.len <$> words) σ1 = (Ok (max_length words), σ1)) as Emax.
  { unfold py_max, max_length. destruct words; [done|]. done. }
  erewrite bind_ok by exact Emax.
  erewrite bind_ok by reflexivity.
  set (σ2 := set_MAX_LEN _ σ1).
  erewrite bind_ok by (by apply index_words_run).
  erewrite bind_ok by (by apply fill_buckets_run).
  reflexivity.
Qed.

Lemma serves_nonempty σ words : serves σ words → words ≠ [].
Proof. by destruct 1. Qed.

Lemma serves_loaded σ words : serves σ words → ∃ lines, words = loaded_words lines.
Proof. destruct 1; by eexists. Qed.

(** In a world that serves a dictionary, [_init] succeeds and leaves the
    index and the buckets of that dictionary; the random draws are not
    touched. *)
Lemma init_serves σ words :
  serves σ words →
  ∃ σ', _init σ = (Ok (), σ')
        ∧ _ANAGRAM_MAP σ' = Some (anagram_index words)
        ∧ _BUCKET_WORDS σ' = Some (buckets_of words)
        ∧ random_draws σ' = random_draws σ
        ∧ dictionary_file σ' = dictionary_file σ
        ∧ serves σ' words.
Proof.
  destruct 1 as [σ lines Hinit Hfile Hne|σ lines Hne Ham Hbw].
  - exists (built_from (loaded_words lines) σ). split_and!; try done.
    + by apply init_builds.
    + by apply serves_built.
  - exists σ. split_and!; try done.
    + apply init_done. unfold initialized. by rewrite Ham, Hbw.
    + by apply serves_built.
Qed.

(** ** The difficulty of a length *)

(** C7. Once the two global lengths are set, with minLen <= maxLen,
    [_difficulty_for_length] returns for every length the value of the
    spec's formula (3 when maxLen = minLen, else
    clamp(floor((L - minLen) * 5 / (maxLen - minLen + 1)) + 1, 1, 5)), this
    value lies in 1..5, and a longer length never gets a lower difficulty. *)
Theorem difficulty_for_length_formula σ minLen maxLen :
  _MIN_LEN σ = Some minLen → _MAX_LEN σ = Some maxLen → minLen ≤ maxLen →
  (∀ L, _difficulty_for_length L σ = (Ok (spec_difficulty minLen maxLen L), σ))
  ∧ (∀ L, 1 ≤ spec_difficulty minLen maxLen L ≤ 5)
  ∧ (∀ L1 L2, L1 < L2 →
       spec_difficulty minLen maxLen L1 ≤ spec_difficulty minLen maxLen L2).
Proof.
  intros Hmin Hmax Hle. split_and!.
  - intros L. rewrite spec_difficulty_eq. by apply difficulty_run.
  - intros L. rewrite spec_difficulty_eq. by apply difficulty_range.
  - intros L1 L2 HL. rewrite !spec_difficulty_eq. apply difficulty_mono; lia.
Qed.

Lemma difficulty_for_length_formula_witness :
  let σ := World None None (Some 3) (Some 9) None [] in
  (_MIN_LEN σ = Some 3 ∧ _MAX_LEN σ = Some 9 ∧ 3 ≤ 9)
  ∧ _difficulty_for_length 5 σ = (Ok 2, σ)
  ∧ _difficulty_for_length 9 σ = (Ok 5, σ).
Proof.
  intros σ.
  pose proof (difficulty_for_length_formula σ 3 9 eq_refl eq_refl ltac:(lia))
    as (Hrun & _ & _).
  split; [split_and!; [reflexivity|reflexivity|lia]|].
  split; [exact (Hrun 5)|exact (Hrun 9)].
Defined.

(** ** The loader *)

Lemma loaded_words_nil lines : loaded_words lines = [] ↔ all_blank lines.
Proof.
  unfold loaded_words, all_blank.
  induction lines as [|line lines IH]; simpl; [by split; [constructor|]|].
  rewrite filter_cons. destruct (decide (Py.strip line ≠ EmptyString)) as [Hne|He].
  - split; [done|]. by intros [? _]%Forall_cons.
  - assert (Py.strip line = EmptyString) as He'.
    { by destruct (decide (Py.strip line = EmptyString)). }
    rewrite IH. split; [by constructor|]. by intros [_ ?]%Forall_cons.
Qed.

(** C9, as amended. The loader raises the source-missing error when the
    file is absent and the empty-source error when every line is blank;
    otherwise it returns, in file order and with duplicates, the stripped
    non-blank lines in lower case. Each returned word is non-empty, is
    unchanged by [lower] and by [strip]; nothing makes it alphabetic. *)
Theorem load_words_contract σ :
  match dictionary_file σ with
  | None => _load_words σ = (Raise (FileNotFoundError not_found_msg), σ)
  | Some lines =>
      let words :=
        Py.lower <$> filter (λ w, w ≠ EmptyString) (Py.strip <$> lines) in
      _load_words σ
      = (if decide (all_blank lines) then Raise (ValueError empty_file_msg)
         else Ok words, σ)
      ∧ Forall (λ w, w ≠ EmptyString ∧ Py.lower w = w ∧ Py.strip w = w) words
  end.
Proof.
  rewrite load_words_eq. destruct (dictionary_file σ) as [lines|]; [|done].
  fold (loaded_words lines). split.
  - destruct (decide (all_blank lines)) as [Hb|Hb].
    + apply loaded_words_nil in Hb. by rewrite Hb.
    + rewrite <- loaded_words_nil in Hb. by destruct (loaded_words lines).
  - apply Forall_forall. intros w Hw. by apply (loaded_word_shape lines).
Qed.

(** C9, as stated, fails: a line that is not alphabetic is loaded as it is. *)
Lemma loaded_word_not_alphabetic :
  let σ := fresh (Some ["d-o-g" +:+ newline]) [] in
  run _load_words σ = Ok ["d-o-g"%string] ∧ Py.isalpha "d-o-g" = false.
Proof. split; reflexivity. Qed.

(** ** The query API *)

Lemma assert_set_run {A} (field : world → option A) σ a :
  field σ = Some a → assert_set field σ = (Ok a, σ).
Proof. intros E. unfold assert_set, get. by rewrite bind_run, E. Qed.

Lemma solve_run σ words puzzle :
  serves σ words →
  ∃ σ', solve puzzle σ = (solve_answer words puzzle, σ')
        ∧ _init σ = (Ok (), σ').
Proof.
  intros Hs. destruct (init_serves σ words Hs) as (σ' & Hinit & Ham & _).
  exists σ'. split; [|done]. unfold solve, solve_answer.
  erewrite bind_ok by exact Hinit.
  erewrite bind_ok by (by apply assert_set_run).
  unfold lift. rewrite bind_run.
  destruct (_validate_input puzzle "puzzle") as [n|e]; [|done].
  unfold mret, M_ret. by rewrite anagram_index_lookup.
Qed.

Lemma verify_run σ words puzzle answer :
  serves σ words →
  ∃ σ', verify puzzle answer σ = (verify_answer words puzzle answer, σ')
        ∧ _init σ = (Ok (), σ').
Proof.
  intros Hs. destruct (init_serves σ words Hs) as (σ' & Hinit & Ham & _).
  exists σ'. split; [|done]. unfold verify, verify_answer.
  erewrite bind_ok by exact Hinit.
  erewrite bind_ok by (by apply assert_set_run).
  unfold lift. rewrite bind_run.
  destruct (_validate_input puzzle "puzzle") as [pn|e]; [|done].
  rewrite bind_run.
  destruct (_validate_input answer "answer") as [an|e]; [|done].
  unfold mret, M_ret. rewrite anagram_index_lookup.
  destruct (decide (_signature pn ≠ _signature an)) as [Hne|He].
  - by rewrite bool_decide_eq_false_2.
  - assert (_signature pn = _signature an) as Heq.
    { by destruct (decide (_signature pn = _signature an)). }
    rewrite (bool_decide_eq_true_2 _ Heq). simpl. do 2 f_equal.
    apply bool_decide_ext. rewrite list_elem_of_filter.
    split; [by intros [_ ?]|]. intros Hin. split; [congruence|done].
Qed.

Lemma sample_served draws : serves (fresh (Some sample_file) draws) sample_words.
Proof. by apply (serves_lazy (fresh (Some sample_file) draws) sample_file). Defined.

Lemma isalpha_alphabetic s :
  Py.isalpha s = true ↔ s ≠ EmptyString ∧ alphabetic s.
Proof.
  unfold Py.isalpha, alphabetic. rewrite <- chars_empty.
  destruct (Py.chars s) as [|c l] eqn:E.
  - split; [done|]. by intros [? _].
  - rewrite forallb_forall, Forall_forall. split.
    + intros H. split; [done|]. intros x Hx. apply H. by apply list_elem_of_In.
    + intros [_ H] x Hx. apply H. by apply list_elem_of_In.
Qed.

Lemma validate_input_eq s name :
  _validate_input s name =
  if decide (Py.strip s = EmptyString) then Raise (empty_error name)
  else if decide (alphabetic (Py.lower (Py.strip s)))
       then Ok (Py.lower (Py.strip s))
       else Raise (alphabetic_error name).
Proof.
  unfold _validate_input.
  destruct (decide (Py.strip s = EmptyString)) as [He|Hne].
  - rewrite decide_True; [done|]. by apply lower_empty.
  - rewrite decide_False by by rewrite lower_empty.
    destruct (decide (alphabetic _)) as [Ha|Hna].
    + assert (Py.isalpha (Py.lower (Py.strip s)) = true) as ->; [|done].
      apply isalpha_alphabetic. split; [by rewrite lower_empty|done].
    + destruct (Py.isalpha _) eqn:E; [|done].
      apply isalpha_alphabetic in E as [_ ?]. done.
Qed.

Lemma validate_input_ok s name n :
  _validate_input s name = Ok n →
  n = Py.lower (Py.strip s) ∧ n ≠ EmptyString ∧ alphabetic n.
Proof.
  rewrite validate_input_eq.
  destruct (decide _) as [|Hne]; [done|].
  destruct (decide _) as [Ha|]; [|done]. intros [= <-].
  split_and!; [done| |done]. by rewrite lower_empty.
Qed.

Lemma lower_fixed_chars s :
  Py.lower s = s ↔ Forall (λ c, Py.lower_char c = c) (Py.chars s).
Proof.
  split.
  - intros E. apply (f_equal Py.chars) in E. rewrite chars_lower in E.
    induction (Py.chars s) as [|c l IH]; [constructor|].
    simpl in E. injection E as Ec El. constructor; [done|by apply IH].
  - intros H. apply chars_inj. rewrite chars_lower.
    induction H as [|c l Hc _ IH]; simpl; [done|]. by rewrite Hc, IH.
Qed.

Lemma alphabetic_no_space s : alphabetic s → no_space (Py.chars s).
Proof.
  unfold alphabetic, no_space. intros H.
  eapply Forall_impl; [exact H|]. intros c. apply isalpha_not_space.
Qed.

(** A string that is alphabetic and in lower case passes validation as it is. *)
Lemma validate_input_fixed s name :
  s ≠ EmptyString → alphabetic s → Py.lower s = s →
  _validate_input s name = Ok s.
Proof.
  intros Hne Ha Hl. rewrite validate_input_eq.
  rewrite (strip_no_space s) by by apply alphabetic_no_space.
  rewrite decide_False by done. rewrite Hl. by rewrite decide_True.
Qed.

Lemma anagram_keeps_shape w q :
  Py.chars q ≡ₚ Py.chars w →
  w ≠ EmptyString → alphabetic w → Py.lower w = w →
  q ≠ EmptyString ∧ alphabetic q ∧ Py.lower q = q.
Proof.
  intros Hp Hne Ha Hl. split_and!.
  - rewrite <- chars_empty in *. intros E. rewrite E in Hp.
    by apply Permutation_nil_l in Hp.
  - unfold alphabetic in *. by rewrite Hp.
  - apply lower_fixed_chars. rewrite Hp. by apply lower_fixed_chars.
Qed.

(** A permutation of an alphabetic dictionary word passes validation. *)
Lemma validate_anagram_of_word lines w q name :
  w ∈ loaded_words lines → alphabetic w → Py.chars q ≡ₚ Py.chars w →
  _validate_input q name = Ok q.
Proof.
  intros Hw Ha Hp.
  destruct (loaded_word_shape lines w Hw) as (Hne & Hl & _).
  destruct (anagram_keeps_shape w q Hp Hne Ha Hl) as (? & ? & ?).
  by apply validate_input_fixed.
Qed.

(** [solve] on a permutation of a dictionary word made of letters returns
    a list that holds the word. *)
Lemma solve_anagram_of_word σ words w q :
  serves σ words → w ∈ words → alphabetic w → Py.chars q ≡ₚ Py.chars w →
  ∃ sols, run (solve q) σ = Ok sols ∧ w ∈ sols.
Proof.
  intros Hs Hw Ha Hp.
  destruct (serves_loaded σ words Hs) as [lines ->].
  destruct (solve_run σ _ q Hs) as (σ' & Hrun & _).
  eexists. split.
  - unfold run. rewrite Hrun. unfold solve_answer.
    by rewrite (validate_anagram_of_word lines w q).
  - apply list_elem_of_filter. split; [|done]. by apply signature_eq_iff.
Qed.

(** C1, as amended. In a world that serves the dictionary [words], [solve]
    on a puzzle that passes validation returns exactly the words whose
    signature is that of the trimmed, lowercased puzzle, in file order and
    with duplicates; that is the empty list when no word has the
    signature. For a dictionary word made of letters only, [solve] on any
    permutation of it returns a list that holds the word. *)
Theorem solve_returns_anagram_class σ words :
  serves σ words →
  (∀ puzzle puzzle_norm,
     _validate_input puzzle "puzzle" = Ok puzzle_norm →
     puzzle_norm = Py.lower (Py.strip puzzle)
     ∧ run (solve puzzle) σ
       = Ok (filter (λ w, _signature w = _signature puzzle_norm) words)
     ∧ ((∀ w, w ∈ words → _signature w ≠ _signature puzzle_norm) →
        run (solve puzzle) σ = Ok []))
  ∧ (∀ w q, w ∈ words → alphabetic w → Py.chars q ≡ₚ Py.chars w →
       ∃ sols, run (solve q) σ = Ok sols ∧ w ∈ sols).
Proof.
  intros Hs. split.
  - intros puzzle n Hv.
    destruct (solve_run σ words puzzle Hs) as (σ' & Hrun & _).
    assert (run (solve puzzle) σ
            = Ok (filter (λ w, _signature w = _signature n) words)) as E.
    { unfold run. rewrite Hrun. unfold solve_answer. by rewrite Hv. }
    split_and!; [by apply validate_input_ok in Hv as [? _]|done|].
    intros Hnone. rewrite E. f_equal. by apply filter_none.
  - intros w q. by apply solve_anagram_of_word.
Qed.

Lemma solve_returns_anagram_class_witness :
  let σ := fresh (Some sample_file) [] in
  serves σ sample_words
  ∧ run (solve " dGo ") σ = Ok ["dog"; "god"]%string
  ∧ ∃ sols, run (solve "odg") σ = Ok sols ∧ "dog"%string ∈ sols.
Proof.
  intros σ. split; [apply sample_served|].
  destruct (solve_returns_anagram_class σ sample_words (sample_served []))
    as [Hclass Hperm].
  split.
  - exact (proj1 (proj2 (Hclass " dGo "%string "dgo"%string eq_refl))).
  - apply (Hperm "dog"%string "odg"%string).
    + by left.
    + unfold alphabetic. repeat constructor.
    + apply sorted_eq_iff. reflexivity.
Defined.

(** C1, as stated, fails: [d-o-g] is a word of the dictionary, and [solve]
    on a permutation of it raises the non-alphabetic error. *)
Lemma solve_rejects_permutation_of_word :
  let σ := fresh (Some ["d-o-g" +:+ newline]) [] in
  run _load_words σ = Ok ["d-o-g"%string]
  ∧ Py.chars "g-o-d" ≡ₚ Py.chars "d-o-g"
  ∧ run (solve "g-o-d") σ = Raise (alphabetic_error "puzzle").
Proof.
  split_and!; [reflexivity| |reflexivity].
  apply sorted_eq_iff. reflexivity.
Qed.

(** C3. For a puzzle and an answer that both pass validation, [verify]
    returns without raising; it returns false when the signatures of the
    two normalized strings differ, and otherwise true exactly when the
    normalized answer is in the class the index holds for that signature,
    which is the list [solve] returns for the puzzle. *)
Theorem verify_is_membership σ words puzzle answer puzzle_norm answer_norm :
  serves σ words →
  _validate_input puzzle "puzzle" = Ok puzzle_norm →
  _validate_input answer "answer" = Ok answer_norm →
  ∃ b class,
    run (verify puzzle answer) σ = Ok b
    ∧ class = default [] (anagram_index words !! _signature puzzle_norm)
    ∧ run (solve puzzle) σ = Ok class
    ∧ (_signature puzzle_norm ≠ _signature answer_norm → b = false)
    ∧ (_signature puzzle_norm = _signature answer_norm →
       (b = true ↔ answer_norm ∈ class)).
Proof.
  intros Hs Hp Ha.
  destruct (verify_run σ words puzzle answer Hs) as (σ1 & Hv & _).
  destruct (solve_run σ words puzzle Hs) as (σ2 & Hsol & _).
  eexists _, _. split_and!.
  - unfold run. rewrite Hv. unfold verify_answer. by rewrite Hp, Ha.
  - reflexivity.
  - unfold run. rewrite Hsol. unfold solve_answer.
    by rewrite Hp, anagram_index_lookup.
  - intros Hne. by rewrite bool_decide_eq_false_2.
  - intros He. rewrite (bool_decide_eq_true_2 _ He). simpl.
    rewrite bool_decide_eq_true, anagram_index_lookup, list_elem_of_filter.
    split; [by intros ?; split|by intros [_ ?]].
Qed.

Lemma verify_is_membership_witness :
  let σ := fresh (Some sample_file) [] in
  (serves σ sample_words
   ∧ _validate_input "dgo" "puzzle" = Ok "dgo"%string
   ∧ _validate_input "Dog " "answer" = Ok "dog"%string)
  ∧ ∃ b class,
      run (verify "dgo" "Dog ") σ = Ok b
      ∧ class = default [] (anagram_index sample_words !! _signature "dgo")
      ∧ run (solve "dgo") σ = Ok class
      ∧ (_signature "dgo" ≠ _signature "dog" → b = false)
      ∧ (_signature "dgo" = _signature "dog" → (b = true ↔ "dog"%string ∈ class)).
Proof.
  intros σ. split; [split_and!; [apply sample_served|reflexivity..]|].
  exact (verify_is_membership σ sample_words "dgo" "Dog " "dgo" "dog"
           (sample_served []) eq_refl eq_refl).
Defined.

(** ** Validation *)

Lemma strip_sublist s c : c ∈ Py.chars (Py.strip s) → c ∈ Py.chars s.
Proof.
  rewrite chars_strip. intros Hc.
  destruct (rstrip_prefix (Py.lstrip (Py.chars s))) as [k1 H1].
  destruct (lstrip_suffix (Py.chars s)) as [k2 H2].
  rewrite H2, H1. set_solver.
Qed.

Lemma ascii_alpha_lower c :
  is_ascii c = true →
  Py.isalpha_char (Py.lower_char c) = Py.is_a_to_z (Py.lower_char c).
Proof. by_cases_on_char c. Qed.

Lemma ascii_alphabetic s :
  Forall (λ c, is_ascii c = true) (Py.chars s) →
  alphabetic (Py.lower (Py.strip s))
  ↔ Forall (λ c, Py.is_a_to_z c = true) (Py.chars (Py.lower (Py.strip s))).
Proof.
  intros Hascii. unfold alphabetic. rewrite chars_lower, !Forall_map.
  rewrite Forall_forall in Hascii. rewrite !Forall_forall.
  split; intros H c Hc; specialize (H c Hc);
    apply strip_sublist, Hascii, ascii_alpha_lower in Hc; congruence.
Qed.

(** C5, as amended. Each string argument is trimmed and lowercased; an
    argument that is empty after trimming raises the empty-input error
    with its name; one whose trimmed, lowercased form holds a character
    that is no letter in the sense of [str.isalpha] raises the
    non-alphabetic error with its name; any other argument is accepted in
    its trimmed, lowercased form. For an argument of ASCII characters the
    letters are exactly a..z. [solve] answers from the validated puzzle,
    [verify] validates the puzzle before the answer and answers from both
    validated forms. *)
Theorem validation_contract σ words :
  serves σ words →
  (∀ s name,
     _validate_input s name =
     if decide (Py.strip s = EmptyString) then Raise (empty_error name)
     else if decide (alphabetic (Py.lower (Py.strip s)))
          then Ok (Py.lower (Py.strip s))
          else Raise (alphabetic_error name))
  ∧ (∀ s, Forall (λ c, is_ascii c = true) (Py.chars s) →
       alphabetic (Py.lower (Py.strip s))
       ↔ Forall (λ c, Py.is_a_to_z c = true) (Py.chars (Py.lower (Py.strip s))))
  ∧ (∀ puzzle, run (solve puzzle) σ = solve_answer words puzzle)
  ∧ (∀ puzzle answer,
       run (verify puzzle answer) σ = verify_answer words puzzle answer).
Proof.
  intros Hs. split_and!.
  - apply validate_input_eq.
  - apply ascii_alphabetic.
  - intros puzzle. destruct (solve_run σ words puzzle Hs) as (σ' & Hrun & _).
    unfold run. by rewrite Hrun.
  - intros puzzle answer.
    destruct (verify_run σ words puzzle answer Hs) as (σ' & Hrun & _).
    unfold run. by rewrite Hrun.
Qed.

Lemma validation_contract_witness :
  let σ := fresh (Some sample_file) [] in
  serves σ sample_words
  ∧ run (solve "   ") σ = Raise (empty_error "puzzle")
  ∧ run (solve "d-o-g") σ = Raise (alphabetic_error "puzzle")
  ∧ run (verify "dog" EmptyString) σ = Raise (empty_error "answer")
  ∧ run (verify "dog!" "dog") σ = Raise (alphabetic_error "puzzle")
  ∧ run (solve " TaC") σ = Ok ["cat"; "act"]%string.
Proof.
  intros σ. split; [apply sample_served|].
  destruct (validation_contract σ sample_words (sample_served []))
    as (_ & _ & Hsolve & Hverify).
  split_and!.
  - exact (Hsolve "   "%string).
  - exact (Hsolve "d-o-g"%string).
  - exact (Hverify "dog"%string EmptyString).
  - exact (Hverify "dog!"%string "dog"%string).
  - exact (Hsolve " TaC"%string).
Defined.

(** C5, as stated, fails: the letter e with an acute accent (code point
    233) is no letter a..z, and [solve] accepts it. *)
Lemma accented_letter_accepted :
  let s := String "233"%char EmptyString in
  Py.is_a_to_z "233"%char = false
  ∧ Py.lower (Py.strip s) = s
  ∧ run (solve s) (fresh (Some sample_file) []) = Ok [].
Proof. split_and!; reflexivity. Qed.

(** ** The fallback fill *)

Lemma filled_spec d bucket_words : filled d bucket_words = spec_fill d bucket_words.
Proof. unfold filled, spec_fill. by rewrite find_nearest_spec. Qed.

Lemma foldl_filled_spec m l :
  foldl (λ m k, filled k m) m l = foldl (λ m k, spec_fill k m) m l.
Proof.
  revert m. induction l as [|k l IH]; intros m; simpl; [done|].
  by rewrite filled_spec, IH.
Qed.

Lemma foldl_filled_other d m l :
  d ∉ l → foldl (λ m k, filled k m) m l !! d = m !! d.
Proof.
  revert m. induction l as [|k l IH]; intros m Hd; simpl; [done|].
  apply not_elem_of_cons in Hd as [Hne Hd].
  rewrite IH by done. by apply filled_other.
Qed.

Lemma foldl_filled_keeps d m l :
  truthy (m !! d) = true → foldl (λ m k, filled k m) m l !! d = m !! d.
Proof.
  revert m. induction l as [|k l IH]; intros m Ht; simpl; [done|].
  rewrite IH; [by apply filled_keeps|]. by apply filled_truthy_mono.
Qed.

Lemma foldl_filled_some_bucket m l :
  some_bucket m → some_bucket (foldl (λ m k, filled k m) m l).
Proof.
  revert m. induction l as [|k l IH]; intros m Hs; simpl; [done|].
  by apply IH, filled_some_bucket.
Qed.

Lemma rounds_NoDup : NoDup [1; 2; 3; 4; 5].
Proof.
  repeat (apply NoDup_cons; split;
          [intros Hin; repeat (apply elem_of_cons in Hin as [?|Hin]; [done|]);
           by apply elem_of_nil in Hin|]).
  apply NoDup_nil_2.
Qed.

(** C6. The first call on a file with a non-blank line succeeds, so the
    error branch of the fill is not taken, and leaves every bucket 1..5
    non-empty. The rounds run in the order 1..5: in the round of [d] the
    buckets before it are [before]; a bucket the length rule left empty
    gets the bucket the search finds first among d-1, d+1, d-2, d+2, d-3,
    d+3, d-4, d+4 in [before], and a bucket the length rule filled stays. *)
Theorem every_bucket_filled σ lines pre d post :
  initialized σ = false → dictionary_file σ = Some lines →
  loaded_words lines ≠ [] →
  [1; 2; 3; 4; 5] = pre ++ d :: post →
  let words := loaded_words lines in
  let before := foldl (λ m k, spec_fill k m) (length_buckets words) pre in
  ∃ σ' buckets,
    _init σ = (Ok (), σ') ∧ _BUCKET_WORDS σ' = Some buckets
    ∧ (∀ k, 1 ≤ k ≤ 5 → truthy (buckets !! k) = true)
    ∧ before !! d = length_buckets words !! d
    ∧ buckets !! d =
        (if truthy (length_buckets words !! d) then length_buckets words !! d
         else nearest ← spec_nearest before d; before !! nearest).
Proof.
  intros Hinit Hfile Hne Hsplit words before.
  exists (built_from words σ), (buckets_of words). split_and!.
  - by apply init_builds.
  - done.
  - intros k Hk. by apply buckets_of_truthy.
  - unfold before. rewrite <- foldl_filled_spec. apply foldl_filled_other.
    pose proof rounds_NoDup as Hnd. rewrite Hsplit in Hnd.
    apply NoDup_app in Hnd as (_ & Hnd & _).
    intros Hin. apply (Hnd d Hin). left.
  - pose proof rounds_NoDup as Hnd. rewrite Hsplit in Hnd.
    apply NoDup_app in Hnd as (_ & Hpre & Hnd).
    apply NoDup_cons in Hnd as [Hpost _].
    assert (d ∉ pre) as Hdpre by (intros ?; eapply Hpre; [done|left]).
    assert (1 ≤ d ≤ 5) as Hd.
    { assert (d ∈ [1; 2; 3; 4; 5]) as Hin by (rewrite Hsplit; set_solver).
      repeat (apply elem_of_cons in Hin as [->|Hin]; [lia|]).
      by apply elem_of_nil in Hin. }
    assert (some_bucket before) as Hsome.
    { unfold before. rewrite <- foldl_filled_spec.
      by apply foldl_filled_some_bucket, length_buckets_some. }
    assert (before !! d = length_buckets words !! d) as Hbd.
    { unfold before. rewrite <- foldl_filled_spec.
      by apply foldl_filled_other. }
    unfold buckets_of. rewrite Hsplit, foldl_app. cbn [foldl].
    rewrite (foldl_filled_spec _ pre). fold words before.
    rewrite foldl_filled_keeps by by apply filled_self.
    rewrite filled_spec. unfold spec_fill. rewrite Hbd.
    destruct (truthy (length_buckets words !! d)) eqn:Ht; [by rewrite Hbd|].
    rewrite <- Hbd in Ht.
    destruct (find_nearest_in_reach before d Hd Hsome Ht) as [k Hk].
    rewrite find_nearest_spec in Hk. rewrite Hk. simpl.
    rewrite lookup_insert_eq.
    rewrite <- find_nearest_spec in Hk. apply find_nearest_truthy in Hk.
    by destruct (before !! k).
Qed.

Lemma every_bucket_filled_witness :
  let σ := fresh (Some sample_file) [] in
  (initialized σ = false ∧ dictionary_file σ = Some sample_file
   ∧ loaded_words sample_file ≠ []
   ∧ [1; 2; 3; 4; 5] = [1; 2; 3] ++ 4 :: [5])
  ∧ ∃ σ' buckets,
      _init σ = (Ok (), σ') ∧ _BUCKET_WORDS σ' = Some buckets
      ∧ (∀ k, 1 ≤ k ≤ 5 → truthy (buckets !! k) = true)
      ∧ buckets !! 4 = Some ["banana"%string].
Proof.
  intros σ. split; [split_and!; done|].
  destruct (every_bucket_filled σ sample_file [1; 2; 3] 4 [5]
              eq_refl eq_refl ltac:(done) eq_refl)
    as (σ' & buckets & Hinit & Hb & Hall & _ & Hd).
  exists σ', buckets. split_and!; [done..|].
  rewrite Hd. vm_compute. reflexivity.
Defined.

(** ** The random module *)

Lemma same_globals_refl σ : same_globals σ σ.
Proof. by repeat split. Qed.

Lemma same_globals_trans σ1 σ2 σ3 :
  same_globals σ1 σ2 → same_globals σ2 σ3 → same_globals σ1 σ3.
Proof.
  intros (?&?&?&?&?) (?&?&?&?&?). repeat split; congruence.
Qed.

Lemma randbelow_run n σ :
  ∃ j σ', randbelow n σ = (Ok j, σ') ∧ same_globals σ σ'
          ∧ (0 < n → j < n)%nat.
Proof.
  unfold randbelow. destruct (random_draws σ) as [|r rs].
  - exists 0%nat, σ. split_and!; [done|apply same_globals_refl|done].
  - exists (r mod n)%nat, (set_random_draws rs σ).
    split_and!; [done|by repeat split|].
    intros Hn. apply Nat.mod_upper_bound. lia.
Qed.

Lemma swap_length {A} i j (l : list A) : length (swap i j l) = length l.
Proof.
  unfold swap. destruct (l !! i), (l !! j); try done.
  by rewrite !length_insert.
Qed.

Lemma swap_Permutation {A} i j (l : list A) : swap i j l ≡ₚ l.
Proof.
  unfold swap. destruct (l !! i) as [a|] eqn:Hi; [|done].
  destruct (l !! j) as [b|] eqn:Hj; [|done].
  apply Permutation_inj. split; [by rewrite !length_insert|].
  exists (λ x, if decide (x = j) then i else if decide (x = i) then j else x).
  split.
  - intros x y. repeat case_decide; congruence.
  - intros x. pose proof (lookup_lt_Some _ _ _ Hi). pose proof (lookup_lt_Some _ _ _ Hj).
    destruct (decide (x = j)) as [->|Hxj].
    + rewrite list_lookup_insert_eq by by rewrite length_insert. done.
    + rewrite list_lookup_insert_ne by done.
      destruct (decide (x = i)) as [->|Hxi].
      * by rewrite list_lookup_insert_eq.
      * by rewrite list_lookup_insert_ne.
Qed.

(** Swapping two places that hold different items changes the list. *)
Lemma swap_differs {A} i j (l : list A) a b :
  l !! i = Some a → l !! j = Some b → a ≠ b → swap i j l ≠ l.
Proof.
  intros Hi Hj Hne E. unfold swap in E. rewrite Hi, Hj in E.
  apply (f_equal (λ k, k !! j)) in E.
  rewrite list_lookup_insert_eq in E.
  - congruence.
  - rewrite length_insert. by eapply lookup_lt_Some.
Qed.

Lemma for_each_inv {A S} (I : S → world → Prop) (body : A → S → M S) l acc σ :
  I acc σ →
  (∀ x a σ1, x ∈ l → I a σ1 → ∃ a' σ2, body x a σ1 = (Ok a', σ2) ∧ I a' σ2) →
  ∃ a' σ', for_each l acc body σ = (Ok a', σ') ∧ I a' σ'.
Proof.
  revert acc σ. induction l as [|x l IH]; intros acc σ Hacc Hb; simpl.
  - by exists acc, σ.
  - destruct (Hb x acc σ) as (a1 & σ1 & Hrun & Hinv); [left|done|].
    erewrite bind_ok by exact Hrun.
    apply IH; [done|]. intros y a σ2 Hy. apply Hb. by right.
Qed.

Lemma shuffle_run {A} (x : list A) σ :
  ∃ x' σ', shuffle x σ = (Ok x', σ') ∧ x' ≡ₚ x ∧ same_globals σ σ'.
Proof.
  unfold shuffle.
  apply (for_each_inv (λ a σ1, a ≡ₚ x ∧ same_globals σ σ1)).
  - split; [done|apply same_globals_refl].
  - intros i a σ1 _ [Ha Hg].
    destruct (randbelow_run (S i) σ1) as (j & σ2 & Hr & Hg2 & _).
    exists (swap i j a), σ2. split_and!.
    + by erewrite bind_ok by exact Hr.
    + by rewrite swap_Permutation.
    + by eapply same_globals_trans.
Qed.

Lemma getitem_run {A} (l : list A) i a σ :
  l !! i = Some a → getitem l i σ = (Ok a, σ).
Proof. intros E. unfold getitem. by rewrite E. Qed.

Lemma choice_run {A} (s : list A) σ :
  s ≠ [] →
  ∃ a σ', choice s σ = (Ok a, σ') ∧ a ∈ s ∧ same_globals σ σ'.
Proof.
  intros Hne. unfold choice. destruct s as [|a0 s0] eqn:E; [done|].
  rewrite <- E in *. clear E a0 s0.
  destruct (randbelow_run (length s) σ) as (i & σ' & Hr & Hg & Hlt).
  assert (i < length s)%nat as Hi.
  { apply Hlt. destruct s; [done|simpl; lia]. }
  destruct (lookup_lt_is_Some_2 s i Hi) as [a Ha].
  exists a, σ'. split_and!; [|by eapply list_elem_of_lookup_2|done].
  erewrite bind_ok by exact Hr. by apply getitem_run.
Qed.

Lemma for_return_spec {A R} (P : R → world → Prop) (Q : A → Prop)
    (body : A → M (option R)) l σ :
  (∀ x, x ∈ l → ∃ r σ2, body x σ = (Ok r, σ2)
      ∧ match r with Some v => P v σ2 | None => σ2 = σ ∧ Q x end) →
  ∃ r σ', for_return l body σ = (Ok r, σ')
      ∧ match r with Some v => P v σ' | None => σ' = σ ∧ ∀ x, x ∈ l → Q x end.
Proof.
  induction l as [|x l IH]; intros Hb; simpl.
  - exists None, σ. split; [done|]. split; [done|]. intros x Hx.
    by apply elem_of_nil in Hx.
  - destruct (Hb x) as (r & σ2 & Hrun & Hr); [left|].
    erewrite bind_ok by exact Hrun. destruct r as [v|].
    + by exists (Some v), σ2.
    + destruct Hr as [-> HQ].
      destruct IH as (r & σ' & Hrun' & Hr').
      { intros y Hy. apply Hb. by right. }
      exists r, σ'. split; [done|]. destruct r; [done|].
      destruct Hr' as [-> HQl]. split; [done|].
      intros y [->|Hy]%elem_of_cons; [done|by apply HQl].
Qed.

(** ** Shuffle-Not-Identity *)

Lemma perm_all_equal {A} (l k : list A) :
  l ≡ₚ k → (∀ a b, a ∈ k → b ∈ k → a = b) → l = k.
Proof.
  induction 1 as [|x l k _ IH|x y l|l k m _ IH1 _ IH2]; intros Heq.
  - done.
  - f_equal. apply IH. intros a b Ha Hb. apply Heq; by right.
  - rewrite (Heq x y); [done|left|right; left].
  - rewrite IH1, IH2; [done|done|]. rewrite IH2 by done. done.
Qed.

Lemma swap_first_distinct_spec letters indices σ :
  indices ≡ₚ seq 0 (length letters) →
  ∃ r, swap_first_distinct letters indices σ = (Ok r, σ)
       ∧ match r with
         | Some s => Py.chars s ≡ₚ letters ∧ Py.chars s ≠ letters
         | None => ∀ a b, a ∈ letters → b ∈ letters → a = b
         end.
Proof.
  intros Hperm. set (n := length letters) in *.
  assert (length indices = n) as Hlen.
  { rewrite Hperm. apply length_seq. }
  assert (∀ i, (i < n)%nat → ∃ idx a, indices !! i = Some idx
            ∧ letters !! idx = Some a) as Hget.
  { intros i Hi.
    destruct (lookup_lt_is_Some_2 indices i) as [idx Hidx]; [lia|].
    assert (idx ∈ seq 0 n) as Hin.
    { rewrite <- Hperm. by eapply list_elem_of_lookup_2. }
    apply elem_of_seq in Hin.
    destruct (lookup_lt_is_Some_2 letters idx) as [a Ha]; [fold n; lia|].
    by exists idx, a. }
  unfold swap_first_distinct. fold n.
  destruct (for_return_spec
    (λ s σ', σ' = σ ∧ Py.chars s ≡ₚ letters ∧ Py.chars s ≠ letters)
    (λ i, ∀ j, (i < j < n)%nat → ∀ idx1 idx2,
            indices !! i = Some idx1 → indices !! j = Some idx2 →
            letters !! idx1 = letters !! idx2)
    (λ i, idx1 ← getitem indices i;
          for_return (seq (i + 1) (n - (i + 1))) (λ j,
            idx2 ← getitem indices j;
            a ← getitem letters idx1;
            b ← getitem letters idx2;
            if decide (a ≠ b)
            then mret (Some (Py.join (swap idx1 idx2 letters)))
            else mret None))
    (seq 0 (n - 1)) σ) as (r & σ' & Hrun & Hr).
  - intros i Hi. apply elem_of_seq in Hi.
    destruct (Hget i) as (idx1 & a & Hidx1 & Ha); [lia|].
    erewrite bind_ok by (by apply getitem_run).
    destruct (for_return_spec
      (λ s σ', σ' = σ ∧ Py.chars s ≡ₚ letters ∧ Py.chars s ≠ letters)
      (λ j, ∀ idx2, indices !! j = Some idx2 → letters !! idx2 = Some a)
      (λ j, idx2 ← getitem indices j;
            a ← getitem letters idx1;
            b ← getitem letters idx2;
            if decide (a ≠ b)
            then mret (Some (Py.join (swap idx1 idx2 letters)))
            else mret None)
      (seq (i + 1) (n - (i + 1))) σ) as (r & σ' & Hrun & Hr).
    + intros j Hj. apply elem_of_seq in Hj.
      destruct (Hget j) as (idx2 & b & Hidx2 & Hb); [lia|].
      erewrite bind_ok by (by apply getitem_run).
      erewrite bind_ok by (by apply getitem_run).
      erewrite bind_ok by (by apply getitem_run).
      destruct (decide (a ≠ b)) as [Hne|He].
      * eexists _, σ. split; [done|]. simpl. rewrite chars_join.
        split_and!; [done|apply swap_Permutation|by eapply swap_differs].
      * exists None, σ. split; [done|]. split; [done|].
        intros idx2' E. rewrite Hidx2 in E. injection E as <-.
        rewrite Hb. f_equal. by destruct (decide (a = b)).
    + exists r, σ'. split; [done|]. destruct r as [s|]; [done|].
      destruct Hr as [-> HQ]. split; [done|].
      intros j Hj idx1' idx2 E1 E2. rewrite Hidx1 in E1. injection E1 as <-.
      rewrite Ha. symmetry. apply (HQ j); [|done]. apply elem_of_seq. lia.
  - exists r. destruct r as [s|].
    + destruct Hr as (-> & ? & ?). done.
    + destruct Hr as [-> HQ]. split; [done|].
      assert (∀ i j p q, (i < j)%nat → indices !! i = Some p →
                indices !! j = Some q → letters !! p = letters !! q) as Hpair.
      { intros i j p q Hij Hp Hq.
        pose proof (lookup_lt_Some _ _ _ Hq) as Hj.
        apply (HQ i) with (j := j); [apply elem_of_seq; lia|lia|done..]. }
      intros a b Ha Hb.
      apply list_elem_of_lookup in Ha as [p Hp], Hb as [q Hq].
      assert (p ∈ indices) as Hpi.
      { rewrite Hperm. apply elem_of_seq.
        pose proof (lookup_lt_Some _ _ _ Hp). fold n in H. lia. }
      assert (q ∈ indices) as Hqi.
      { rewrite Hperm. apply elem_of_seq.
        pose proof (lookup_lt_Some _ _ _ Hq). fold n in H. lia. }
      apply list_elem_of_lookup in Hpi as [i Hi], Hqi as [j Hj].
      destruct (Nat.lt_total i j) as [Hlt|[->|Hgt]].
      * pose proof (Hpair i j p q Hlt Hi Hj). congruence.
      * congruence.
      * pose proof (Hpair j i q p Hgt Hj Hi). congruence.
Qed.

Lemma not_distinct_all_equal s :
  ¬ distinct_chars s → ∀ a b, a ∈ Py.chars s → b ∈ Py.chars s → a = b.
Proof.
  intros Hn a b Ha Hb. destruct (decide (a = b)) as [|Hne]; [done|].
  destruct Hn. by exists a, b.
Qed.

Lemma shuffle_not_identity_spec word σ :
  ∃ r σ', _shuffle_not_identity word σ = (Ok r, σ')
    ∧ same_globals σ σ'
    ∧ Py.chars r ≡ₚ Py.chars word
    ∧ (distinct_chars word → r ≠ word)
    ∧ (¬ distinct_chars word → r = word).
Proof.
  unfold _shuffle_not_identity.
  destruct (shuffle_run (Py.chars word) σ) as (letters & σ1 & Hsh & Hp & Hg1).
  erewrite bind_ok by exact Hsh.
  destruct (decide (Py.join letters ≠ word)) as [Hne|He].
  - exists (Py.join letters), σ1. rewrite chars_join.
    split_and!; [done..|].
    intros Hnd. apply chars_inj. rewrite chars_join.
    apply perm_all_equal; [done|]. by apply not_distinct_all_equal.
  - assert (Py.join letters = word) as Hw.
    { by destruct (decide (Py.join letters = word)). }
    assert (letters = Py.chars word) as Hl by by rewrite <- Hw, chars_join.
    destruct (shuffle_run (seq 0 (length letters)) σ1)
      as (indices & σ2 & Hsh2 & Hp2 & Hg2).
    erewrite bind_ok by exact Hsh2.
    destruct (swap_first_distinct_spec letters indices σ2 Hp2) as (r & Hrun & Hr).
    erewrite bind_ok by exact Hrun.
    assert (same_globals σ σ2) as Hg by by eapply same_globals_trans.
    destruct r as [s|].
    + destruct Hr as [Hps Hns]. exists s, σ2. rewrite Hl in Hps, Hns.
      split_and!; [done..| |].
      * intros _ ->. done.
      * intros Hnd. destruct Hns.
        apply perm_all_equal; [done|]. by apply not_distinct_all_equal.
    + exists (Py.join letters), σ2. rewrite Hw.
      split_and!; [done..| |done].
      intros (a & b & Ha & Hb & Hab). rewrite <- Hl in Ha, Hb.
      by destruct (Hab (Hr a b Ha Hb)).
Qed.

(** C4. For every string and every sequence of random draws,
    [_shuffle_not_identity] returns a string that is a permutation of its
    input; the result differs from the input when the input holds two
    different characters, and equals it otherwise. *)
Theorem shuffle_not_identity_contract word σ :
  ∃ r σ', _shuffle_not_identity word σ = (Ok r, σ')
    ∧ Py.chars r ≡ₚ Py.chars word
    ∧ (distinct_chars word → r ≠ word)
    ∧ (¬ distinct_chars word → r = word).
Proof.
  destruct (shuffle_not_identity_spec word σ) as (r & σ' & ? & _ & ? & ? & ?).
  by exists r, σ'.
Qed.

Example shuffle_not_identity_ab :
  run (_shuffle_not_identity "ab") (fresh None [1; 0]%nat) = Ok "ba"%string.
Proof. reflexivity. Qed.

Example shuffle_not_identity_aaa :
  run (_shuffle_not_identity "aaa") (fresh None [1; 0; 2]%nat) = Ok "aaa"%string.
Proof. reflexivity. Qed.

(** ** What the generator leaves of the world *)

Lemma frames_ret {A} (a : A) : frames (mret a).
Proof. intros σ. apply same_globals_refl. Qed.

Lemma frames_raise {A} e : frames (@raise A e).
Proof. intros σ. apply same_globals_refl. Qed.

Lemma frames_get {A} (field : world → A) : frames (get field).
Proof. intros σ. apply same_globals_refl. Qed.

Lemma frames_lift {A} (r : result A) : frames (lift r).
Proof. intros σ. apply same_globals_refl. Qed.

Lemma frames_bind {A B} (m : M A) (f : A → M B) :
  frames m → (∀ a, frames (f a)) → frames (m ≫= f).
Proof.
  intros Hm Hf σ. rewrite bind_run. specialize (Hm σ).
  destruct (m σ) as [[a|e] σ1]; simpl in *; [|done].
  eapply same_globals_trans; [done|]. apply Hf.
Qed.

Lemma frames_getitem {A} (l : list A) i : frames (getitem l i).
Proof. unfold getitem. destruct (l !! i); [apply frames_ret|apply frames_raise]. Qed.

Lemma frames_dict_getitem `{Countable K} {A} (d : gmap K A) k :
  frames (dict_getitem d k).
Proof.
  unfold dict_getitem. destruct (d !! k); [apply frames_ret|apply frames_raise].
Qed.

Lemma frames_assert_set {A} (field : world → option A) : frames (assert_set field).
Proof.
  apply frames_bind; [apply frames_get|].
  intros [a|]; [apply frames_ret|apply frames_raise].
Qed.

Lemma frames_randbelow n : frames (randbelow n).
Proof.
  intros σ. destruct (randbelow_run n σ) as (j & σ' & E & Hg & _). by rewrite E.
Qed.

Lemma frames_for_each {A S} (l : list A) (acc : S) (body : A → S → M S) :
  (∀ x a, frames (body x a)) → frames (for_each l acc body).
Proof.
  intros Hb. revert acc. induction l as [|x l IH]; intros acc; simpl.
  - apply frames_ret.
  - apply frames_bind; [apply Hb|]. intros a. apply IH.
Qed.

Lemma frames_for_return {A R} (l : list A) (body : A → M (option R)) :
  (∀ x, frames (body x)) → frames (for_return l body).
Proof.
  intros Hb. induction l as [|x l IH]; simpl.
  - apply frames_ret.
  - apply frames_bind; [apply Hb|]. intros [v|]; [apply frames_ret|apply IH].
Qed.

Lemma frames_shuffle {A} (x : list A) : frames (shuffle x).
Proof.
  apply frames_for_each. intros i a.
  apply frames_bind; [apply frames_randbelow|]. intros j. apply frames_ret.
Qed.

Lemma frames_choice {A} (s : list A) : frames (choice s).
Proof.
  unfold choice. destruct s; [apply frames_raise|].
  apply frames_bind; [apply frames_randbelow|]. intros i. apply frames_getitem.
Qed.

Lemma frames_shuffle_not_identity word : frames (_shuffle_not_identity word).
Proof.
  intros σ.
  destruct (shuffle_not_identity_spec word σ) as (r & σ' & E & Hg & _).
  by rewrite E.
Qed.

Lemma frames_generate_unsolvable words :
  frames (_generate_unsolvable_from_words words).
Proof.
  apply frames_bind; [apply frames_assert_set|]. intros anagram_map.
  destruct (filter _ words); [apply frames_raise|].
  apply frames_bind; [apply frames_shuffle|]. intros shuffled.
  apply frames_bind.
  - apply frames_for_return. intros base.
    apply frames_for_return. intros mutated.
    cbv zeta.
    destruct (decide (anagram_map !! _signature mutated = None));
      [|apply frames_ret].
    apply frames_bind; [apply frames_shuffle_not_identity|].
    intros p. apply frames_ret.
  - intros [p|]; [apply frames_ret|apply frames_raise].
Qed.

(** After [_init], [generate_puzzle] touches nothing but the random draws. *)
Lemma generate_puzzle_final difficulty unsolvable σ :
  same_globals (_init σ).2 (generate_puzzle difficulty unsolvable σ).2.
Proof.
  unfold generate_puzzle. rewrite bind_run.
  destruct (_init σ) as [[[]|e] σ1]; [|apply same_globals_refl].
  change ((Ok (), σ1).2) with σ1.
  apply frames_bind; [apply frames_assert_set|]. intros bucket_words.
  apply frames_bind.
  { destruct difficulty; [apply frames_ret|apply frames_choice]. }
  intros d. destruct (negb _); [apply frames_raise|].
  apply frames_bind; [apply frames_dict_getitem|]. intros words.
  destruct (negb unsolvable).
  - apply frames_bind; [apply frames_choice|]. intros base.
    apply frames_shuffle_not_identity.
  - apply frames_generate_unsolvable.
Qed.

Lemma solve_final puzzle σ : (solve puzzle σ).2 = (_init σ).2.
Proof.
  unfold solve. rewrite bind_run.
  destruct (_init σ) as [[[]|e] σ1]; [|done].
  rewrite bind_run. unfold assert_set at 1. rewrite bind_run. unfold get at 1.
  destruct (_ANAGRAM_MAP σ1); [|done].
  unfold mret at 1, M_ret at 1. rewrite bind_run. unfold lift at 1.
  by destruct (_validate_input puzzle "puzzle").
Qed.

Lemma verify_final puzzle answer σ : (verify puzzle answer σ).2 = (_init σ).2.
Proof.
  unfold verify. rewrite bind_run.
  destruct (_init σ) as [[[]|e] σ1]; [|done].
  rewrite bind_run. unfold assert_set at 1. rewrite bind_run. unfold get at 1.
  destruct (_ANAGRAM_MAP σ1); [|done].
  unfold mret at 1, M_ret at 1. rewrite bind_run. unfold lift at 1.
  destruct (_validate_input puzzle "puzzle"); [|done].
  rewrite bind_run. unfold lift at 1.
  destruct (_validate_input answer "answer"); [|done].
  by destruct (decide _).
Qed.

(** *** Initialization is all or nothing *)

Lemma init_cases σ :
  (_init σ = (Ok (), σ) ∧ initialized σ = true)
  ∨ (initialized σ = false ∧ ∃ e, run _load_words σ = Raise e
       ∧ (e = FileNotFoundError not_found_msg ∨ e = ValueError empty_file_msg)
       ∧ _init σ = (Raise e, σ))
  ∨ (initialized σ = false ∧ ∃ words, run _load_words σ = Ok words
       ∧ words ≠ [] ∧ _init σ = (Ok (), built_from words σ)).
Proof.
  destruct (initialized σ) eqn:Hinit; [left; by split; [apply init_done|]|].
  right. unfold run. rewrite load_words_eq. simpl.
  destruct (dictionary_file σ) as [lines|] eqn:Hfile.
  - destruct (loaded_words lines) as [|w ws] eqn:Hw.
    + left. split; [done|]. eexists. split_and!; [done|by right|].
      apply init_load_fails; [done|]. unfold run.
      by rewrite load_words_eq, Hfile, Hw.
    + right. split; [done|]. exists (w :: ws). split_and!; [done..|].
      rewrite <- Hw. apply init_builds; [done..|]. by rewrite Hw.
  - left. split; [done|]. eexists. split_and!; [done|by left|].
    apply init_load_fails; [done|]. unfold run.
    by rewrite load_words_eq, Hfile.
Qed.

Lemma consistent_init σ : consistent σ → consistent (_init σ).2.
Proof.
  intros Hc.
  destruct (init_cases σ) as [[-> _]|[(_ & e & _ & _ & ->)|(_ & w & _ & _ & ->)]];
    [done..|].
  by right.
Qed.

Lemma consistent_same_globals σ σ' :
  same_globals σ σ' → consistent σ → consistent σ'.
Proof.
  intros (Ha & Hb & _) Hc. unfold consistent, initialized in *.
  by rewrite Ha, Hb.
Qed.

Lemma reachable_consistent σ : reachable σ → consistent σ.
Proof.
  induction 1 as [file draws|σ file draws _ IH|σ _ IH|σ p _ IH|σ p a _ IH
                 |σ d u _ IH].
  - by left.
  - done.
  - by apply consistent_init.
  - rewrite solve_final. by apply consistent_init.
  - rewrite verify_final. by apply consistent_init.
  - eapply consistent_same_globals; [apply generate_puzzle_final|].
    by apply consistent_init.
Qed.

(** C10. In every world the module can reach: when the index is built,
    [_init] returns at once and changes nothing; when it is not and the
    loader fails (file missing or without a non-blank line), [_init] and
    with it [solve], [verify] and [generate_puzzle] raise the loader's
    error and leave the world as it was, index and buckets both unset, so
    that the next call loads again; when the loader succeeds, [_init]
    builds both structures from the loaded words. *)
Theorem init_is_atomic σ :
  reachable σ →
  if initialized σ then _init σ = (Ok (), σ)
  else
    match run _load_words σ with
    | Raise e =>
        (e = FileNotFoundError not_found_msg ∨ e = ValueError empty_file_msg)
        ∧ _init σ = (Raise e, σ)
        ∧ _ANAGRAM_MAP σ = None ∧ _BUCKET_WORDS σ = None
        ∧ (∀ puzzle, solve puzzle σ = (Raise e, σ))
        ∧ (∀ puzzle answer, verify puzzle answer σ = (Raise e, σ))
        ∧ (∀ difficulty unsolvable,
             generate_puzzle difficulty unsolvable σ = (Raise e, σ))
    | Ok words =>
        ∃ σ', _init σ = (Ok (), σ') ∧ initialized σ' = true
              ∧ _ANAGRAM_MAP σ' = Some (anagram_index words)
              ∧ _BUCKET_WORDS σ' = Some (buckets_of words)
    end.
Proof.
  intros Hreach. apply reachable_consistent in Hreach as Hc.
  destruct (init_cases σ)
    as [[E Hi]|[(Hi & e & Hload & He & E)|(Hi & words & Hload & Hne & E)]];
    rewrite Hi; [done| |].
  - rewrite Hload. destruct Hc as [[Ha Hb]|Hc]; [|congruence].
    split_and!; try done.
    + intros puzzle. unfold solve. by erewrite bind_raise.
    + intros puzzle answer. unfold verify. by erewrite bind_raise.
    + intros difficulty unsolvable. unfold generate_puzzle.
      by erewrite bind_raise.
  - rewrite Hload. by exists (built_from words σ).
Qed.

Lemma init_is_atomic_witness :
  let σ := fresh None [] in
  let e := FileNotFoundError not_found_msg in
  reachable σ
  ∧ _init σ = (Raise e, σ)
  ∧ _ANAGRAM_MAP σ = None ∧ _BUCKET_WORDS σ = None
  ∧ solve "dgo" σ = (Raise e, σ)
  ∧ generate_puzzle (Some 1) false σ = (Raise e, σ).
Proof.
  intros σ e.
  pose proof (init_is_atomic σ (reach_fresh None []))
    as (_ & Hinit & Ha & Hb & Hsolve & _ & Hgen).
  split_and!; [apply reach_fresh|done..|apply Hsolve|apply Hgen].
Defined.

Example init_retries_after_failure :
  let σ := fresh None [] in
  let σ1 := (solve "dgo" σ).2 in
  let σ2 := World (_ANAGRAM_MAP σ1) (_BUCKET_WORDS σ1) (_MIN_LEN σ1) (_MAX_LEN σ1)
                  (Some sample_file) [] in
  run (solve "dgo") σ = Raise (FileNotFoundError not_found_msg)
  ∧ run (solve "dgo") σ2 = Ok ["dog"; "god"]%string.
Proof. split; reflexivity. Qed.

(** ** The generator *)

Lemma length_buckets_within words : within words (length_buckets words).
Proof.
  intros k l w Hl Hw.
  pose proof (length_buckets_lookup words k) as E. rewrite Hl in E. simpl in E.
  rewrite E in Hw. by apply list_elem_of_filter in Hw as [_ ?].
Qed.

Lemma filled_within words d m : within words m → within words (filled d m).
Proof.
  intros Hm k l w. unfold filled.
  destruct (truthy (m !! d)); [apply Hm|].
  destruct (find_nearest m d [1; 2; 3; 4]) as [nearest|]; [|apply Hm].
  destruct (decide (k = d)) as [->|Hne].
  - rewrite lookup_insert_eq. intros [= <-].
    destruct (m !! nearest) as [l'|] eqn:E; simpl; [by apply (Hm nearest)|].
    by intros ?%elem_of_nil.
  - rewrite lookup_insert_ne by done. apply Hm.
Qed.

Lemma buckets_of_within words : within words (buckets_of words).
Proof.
  unfold buckets_of. cbn [foldl].
  do 5 apply filled_within. apply length_buckets_within.
Qed.

Lemma buckets_of_lookup words d :
  words ≠ [] → 1 ≤ d ≤ 5 →
  ∃ bucket, buckets_of words !! d = Some bucket ∧ bucket ≠ []
            ∧ ∀ w, w ∈ bucket → w ∈ words.
Proof.
  intros Hne Hd. pose proof (buckets_of_truthy words d Hne Hd) as Ht.
  destruct (buckets_of words !! d) as [[|w bucket]|] eqn:E; try done.
  exists (w :: bucket). split_and!; [done..|].
  intros w' Hw'. by apply (buckets_of_within words d (w :: bucket)).
Qed.

Lemma serves_same_globals σ σ1 σ' words :
  serves σ words → _init σ = (Ok (), σ1) → same_globals σ1 σ' →
  serves σ' words
  ∧ _ANAGRAM_MAP σ' = Some (anagram_index words)
  ∧ _BUCKET_WORDS σ' = Some (buckets_of words).
Proof.
  intros Hs Hinit (Ha & Hb & _).
  destruct (init_serves σ words Hs) as (σ2 & Hinit2 & Ham & Hbw & _).
  rewrite Hinit in Hinit2. injection Hinit2 as <-.
  destruct (serves_loaded σ words Hs) as [lines ->].
  pose proof (serves_nonempty _ _ Hs) as Hne.
  split_and!; [|congruence..]. apply serves_built; [done|congruence..].
Qed.

Lemma in_rounds d : 1 ≤ d ≤ 5 → bool_decide (d ∈ [1; 2; 3; 4; 5]) = true.
Proof.
  intros Hd. apply bool_decide_eq_true.
  assert (d = 1 ∨ d = 2 ∨ d = 3 ∨ d = 4 ∨ d = 5) as Hc by lia.
  destruct Hc as [->|[->|[->|[->| ->]]]]; repeat ((by left) || right).
Qed.

(** How [generate_puzzle] reaches the bucket of a difficulty 1..5. *)
Lemma generate_puzzle_enters σ words d unsolvable :
  serves σ words → 1 ≤ d ≤ 5 →
  ∃ σ1 bucket,
    _init σ = (Ok (), σ1)
    ∧ buckets_of words !! d = Some bucket ∧ bucket ≠ []
    ∧ (∀ w, w ∈ bucket → w ∈ words)
    ∧ _ANAGRAM_MAP σ1 = Some (anagram_index words)
    ∧ generate_puzzle (Some d) unsolvable σ =
      (if negb unsolvable then base ← choice bucket; _shuffle_not_identity base
       else _generate_unsolvable_from_words bucket) σ1.
Proof.
  intros Hs Hd.
  destruct (init_serves σ words Hs) as (σ1 & Hinit & Ham & Hbw & _).
  destruct (buckets_of_lookup words d (serves_nonempty _ _ Hs) Hd)
    as (bucket & Hb & Hne & Hsub).
  exists σ1, bucket. split_and!; try done.
  unfold generate_puzzle.
  erewrite bind_ok by exact Hinit.
  erewrite bind_ok by (by apply assert_set_run).
  erewrite bind_ok by reflexivity.
  rewrite (in_rounds d Hd). cbn [negb].
  erewrite bind_ok; [done|]. unfold dict_getitem. by rewrite Hb.
Qed.

(** C8, as amended. For a difficulty 1..5, [generate_puzzle] without the
    unsolvable flag returns a string: a non-empty permutation of a word of
    the bucket of that difficulty, which is a word of the dictionary. When
    that word is made of letters only, [solve] on the puzzle returns a list
    that holds the word, so at least one word. *)
Theorem solvable_puzzle_contract σ words d :
  serves σ words → 1 ≤ d ≤ 5 →
  ∃ p σ' bucket base,
    generate_puzzle (Some d) false σ = (Ok p, σ')
    ∧ _BUCKET_WORDS σ' = Some (buckets_of words)
    ∧ buckets_of words !! d = Some bucket
    ∧ base ∈ bucket ∧ base ∈ words
    ∧ p ≠ EmptyString ∧ Py.chars p ≡ₚ Py.chars base
    ∧ (alphabetic base → ∃ sols, run (solve p) σ' = Ok sols ∧ base ∈ sols).
Proof.
  intros Hs Hd.
  destruct (generate_puzzle_enters σ words d false Hs Hd)
    as (σ1 & bucket & Hinit & Hb & Hne & Hsub & Ham & Hgen).
  cbn [negb] in Hgen.
  destruct (choice_run bucket σ1 Hne) as (base & σ2 & Hch & Hbase & Hg2).
  destruct (shuffle_not_identity_spec base σ2) as (p & σ' & Hsh & Hg3 & Hp & _).
  assert (same_globals σ1 σ') as Hg by by eapply same_globals_trans.
  destruct (serves_same_globals σ σ1 σ' words Hs Hinit Hg) as (Hs' & _ & Hbw').
  destruct (serves_loaded σ words Hs) as [lines Hlines].
  assert (base ∈ words) as Hw by by apply Hsub.
  exists p, σ', bucket, base. split_and!; try done.
  - rewrite Hgen. by erewrite bind_ok by exact Hch.
  - rewrite Hlines in Hw. apply loaded_word_shape in Hw as (Hnb & _).
    rewrite <- chars_empty in *. intros E. rewrite E in Hp.
    by apply Permutation_nil_l in Hp.
  - intros Ha.
    by apply (solve_anagram_of_word σ' words).
Qed.

Lemma solvable_puzzle_contract_witness :
  let σ := fresh (Some sample_file) [1; 2; 0; 1]%nat in
  (serves σ sample_words ∧ 1 ≤ 2 ≤ 5)
  ∧ ∃ p σ' bucket base,
      generate_puzzle (Some 2) false σ = (Ok p, σ')
      ∧ _BUCKET_WORDS σ' = Some (buckets_of sample_words)
      ∧ buckets_of sample_words !! 2 = Some bucket
      ∧ base ∈ bucket ∧ base ∈ sample_words
      ∧ p ≠ EmptyString ∧ Py.chars p ≡ₚ Py.chars base
      ∧ (alphabetic base → ∃ sols, run (solve p) σ' = Ok sols ∧ base ∈ sols).
Proof.
  intros σ. split; [split; [apply sample_served|lia]|].
  exact (solvable_puzzle_contract σ sample_words 2 (sample_served _) ltac:(lia)).
Defined.

(** C8, as stated, fails: from a file whose only line is [d-o-g] the
    generator returns a permutation of that word, and [solve] on it raises
    the non-alphabetic error instead of returning a word. *)
Lemma solvable_puzzle_not_solved :
  let σ := fresh (Some ["d-o-g" +:+ newline]) [] in
  run (generate_puzzle (Some 1) false) σ = Ok "-o-gd"%string
  ∧ run (solve "-o-gd") (generate_puzzle (Some 1) false σ).2
    = Raise (alphabetic_error "puzzle").
Proof. split; reflexivity. Qed.

(** *** Vowel mutations *)

Lemma enumerate_lookup {A} (l : list A) i x :
  (i, x) ∈ enumerate l → l !! i = Some x.
Proof.
  unfold enumerate. intros [k Hk]%list_elem_of_lookup.
  apply lookup_zip_with_Some in Hk as (i' & x' & [= -> ->] & Hi & Hx).
  apply lookup_seq in Hi as [-> _]. done.
Qed.

Lemma vowel_cases v :
  is_vowel v = true ↔ v ∈ Py.chars "aeiou".
Proof. unfold is_vowel, _VOWELS. apply bool_decide_eq_true. Qed.

Lemma vowel_is_letter v :
  is_vowel v = true → Py.isalpha_char v = true ∧ Py.lower_char v = v.
Proof.
  rewrite vowel_cases. intros Hv.
  repeat (apply elem_of_cons in Hv as [->|Hv]; [by split|]).
  by apply elem_of_nil in Hv.
Qed.

Lemma single_vowel_mutations_sound w m :
  m ∈ _single_vowel_mutations w → vowel_mutation w m.
Proof.
  unfold _single_vowel_mutations.
  intros (pos & Hm & Hpos)%list_elem_of_bind.
  apply list_elem_of_fmap in Hpos as ([i ch] & -> & Hp).
  apply list_elem_of_filter in Hp as [Hv Hp]. cbn [fst snd] in Hv, Hm.
  apply enumerate_lookup in Hp. rewrite Hp in Hm.
  apply list_elem_of_bind in Hm as (v & Hm & Hvow).
  destruct (decide (v = ch)) as [|Hne]; [by apply elem_of_nil in Hm|].
  apply list_elem_of_singleton in Hm as ->.
  exists i, ch, v. split_and!; [done..|by apply vowel_cases|done|].
  apply chars_join.
Qed.

Lemma vowel_mutation_shape w m :
  vowel_mutation w m →
  m ≠ EmptyString
  ∧ (alphabetic w → alphabetic m)
  ∧ (Py.lower w = w → Py.lower m = m).
Proof.
  intros (pos & current & v & Hpos & _ & Hv & _ & Hm).
  destruct (vowel_is_letter v Hv) as [Hal Hlo]. split_and!.
  - rewrite <- chars_empty. intros E.
    apply lookup_lt_Some in Hpos.
    apply (f_equal length) in E. rewrite Hm, length_insert in E.
    simpl in E. lia.
  - unfold alphabetic. rewrite Hm. intros Ha. by apply Forall_insert.
  - rewrite !lower_fixed_chars, Hm. intros Ha. by apply Forall_insert.
Qed.

(** What [_generate_unsolvable_from_words] returns, when it returns: a
    shuffle of a vowel mutation whose signature the index does not hold. *)
Lemma generate_unsolvable_spec words σ anagram_map p σ' :
  _ANAGRAM_MAP σ = Some anagram_map →
  _generate_unsolvable_from_words words σ = (Ok p, σ') →
  ∃ base mutated,
    base ∈ words ∧ mutated ∈ _single_vowel_mutations base
    ∧ anagram_map !! _signature mutated = None
    ∧ Py.chars p ≡ₚ Py.chars mutated
    ∧ same_globals σ σ'.
Proof.
  intros Ham. unfold _generate_unsolvable_from_words.
  erewrite bind_ok by (by apply assert_set_run).
  destruct (filter _ words) as [|w0 ws0] eqn:Hf; [done|].
  rewrite <- Hf. clear w0 ws0 Hf.
  set (vowelled := filter _ words).
  destruct (shuffle_run vowelled σ) as (shuffled & σ1 & Hsh & Hperm & Hg1).
  erewrite bind_ok by exact Hsh.
  set (P := λ (p : string) (σ2 : world), ∃ base mutated,
          base ∈ words ∧ mutated ∈ _single_vowel_mutations base
          ∧ anagram_map !! _signature mutated = None
          ∧ Py.chars p ≡ₚ Py.chars mutated
          ∧ same_globals σ σ2).
  destruct (for_return_spec P (λ _, True)
    (λ base, for_return (_single_vowel_mutations base) (λ mutated,
       let sig := _signature mutated in
       if decide (anagram_map !! sig = None)
       then p ← _shuffle_not_identity mutated; mret (Some p)
       else mret None))
    shuffled σ1) as (r & σ2 & Hrun & Hr).
  - intros base Hbase.
    assert (base ∈ words) as Hw.
    { rewrite Hperm in Hbase. unfold vowelled in Hbase.
      by apply list_elem_of_filter in Hbase as [_ ?]. }
    destruct (for_return_spec P (λ _, True)
      (λ mutated,
         let sig := _signature mutated in
         if decide (anagram_map !! sig = None)
         then p ← _shuffle_not_identity mutated; mret (Some p)
         else mret None)
      (_single_vowel_mutations base) σ1) as (r & σ2 & Hrun & Hr).
    + intros mutated Hmut. cbv zeta.
      destruct (decide (anagram_map !! _signature mutated = None)) as [Hn|Hs].
      * destruct (shuffle_not_identity_spec mutated σ1)
          as (q & σ2 & Hq & Hg2 & Hpq & _).
        exists (Some q), σ2. split; [by erewrite bind_ok by exact Hq|].
        exists base, mutated. split_and!; try done.
        by eapply same_globals_trans.
      * by exists None, σ1.
    + exists r, σ2. split; [done|]. destruct r; [done|]. by destruct Hr.
  - erewrite bind_ok by exact Hrun.
    destruct r as [q|]; [|done]. intros [= <- <-]. exact Hr.
Qed.

(** C2, as amended. For a difficulty 1..5, a string that [generate_puzzle]
    returns with the unsolvable flag is a permutation of a single-vowel
    mutation of a word of the bucket, and no dictionary word has its
    signature: neither the mutation's signature nor the puzzle's, which
    are the same, is a key of the index. When the bucket word is made of
    letters only, [solve] on the puzzle returns the empty list. *)
Theorem unsolvable_puzzle_contract σ words d p σ' :
  serves σ words → 1 ≤ d ≤ 5 →
  generate_puzzle (Some d) true σ = (Ok p, σ') →
  ∃ bucket base mutated,
    buckets_of words !! d = Some bucket
    ∧ base ∈ bucket ∧ base ∈ words
    ∧ vowel_mutation base mutated
    ∧ Py.chars p ≡ₚ Py.chars mutated
    ∧ _signature p = _signature mutated
    ∧ _ANAGRAM_MAP σ' = Some (anagram_index words)
    ∧ anagram_index words !! _signature p = None
    ∧ (∀ w, w ∈ words → _signature w ≠ _signature p)
    ∧ (alphabetic base → run (solve p) σ' = Ok []).
Proof.
  intros Hs Hd Hgen.
  destruct (generate_puzzle_enters σ words d true Hs Hd)
    as (σ1 & bucket & Hinit & Hb & Hne & Hsub & Ham & Hgen').
  rewrite Hgen' in Hgen. cbn [negb] in Hgen.
  destruct (generate_unsolvable_spec bucket σ1 _ p σ' Ham Hgen)
    as (base & mutated & Hbase & Hmut & Hnone & Hp & Hg).
  destruct (serves_same_globals σ σ1 σ' words Hs Hinit Hg) as (Hs' & Ham' & _).
  apply single_vowel_mutations_sound in Hmut.
  assert (_signature p = _signature mutated) as Hsig by by apply signature_eq_iff.
  assert (base ∈ words) as Hw by by apply Hsub.
  assert (∀ w, w ∈ words → _signature w ≠ _signature p) as Habsent.
  { intros w Hin E. rewrite <- Hsig in Hnone.
    apply anagram_index_None in Hnone.
    eapply (filter_nil_not_elem_of _ _ w); [exact Hnone|done..]. }
  exists bucket, base, mutated. split_and!; try done; [congruence|].
  intros Ha.
  destruct (serves_loaded σ words Hs) as [lines Hlines].
  rewrite Hlines in Hw. apply loaded_word_shape in Hw as (_ & Hlow & _).
  destruct (vowel_mutation_shape base mutated Hmut) as (Hmne & Hmal & Hmlow).
  destruct (anagram_keeps_shape mutated p Hp Hmne (Hmal Ha) (Hmlow Hlow))
    as (Hpne & Hpal & Hplow).
  destruct (solve_run σ' words p Hs') as (σ2 & Hrun & _).
  unfold run. rewrite Hrun. unfold solve_answer.
  rewrite (validate_input_fixed p "puzzle" Hpne Hpal Hplow).
  cbn [fst]. f_equal. by apply filter_none.
Qed.

Lemma unsolvable_puzzle_contract_witness :
  let σ := fresh (Some sample_file) [1; 2; 0; 1]%nat in
  let σ' := (generate_puzzle (Some 5) true σ).2 in
  (serves σ sample_words ∧ 1 ≤ 5 ≤ 5
   ∧ generate_puzzle (Some 5) true σ = (Ok "atphnsael"%string, σ'))
  ∧ ∃ bucket base mutated,
      buckets_of sample_words !! 5 = Some bucket
      ∧ base ∈ bucket ∧ base ∈ sample_words
      ∧ vowel_mutation base mutated
      ∧ Py.chars "atphnsael" ≡ₚ Py.chars mutated
      ∧ _signature "atphnsael" = _signature mutated
      ∧ _ANAGRAM_MAP σ' = Some (anagram_index sample_words)
      ∧ anagram_index sample_words !! _signature "atphnsael" = None
      ∧ (∀ w, w ∈ sample_words → _signature w ≠ _signature "atphnsael")
      ∧ (alphabetic base → run (solve "atphnsael") σ' = Ok []).
Proof.
  intros σ σ'.
  assert (generate_puzzle (Some 5) true σ = (Ok "atphnsael"%string, σ')) as Hgen.
  { vm_compute. reflexivity. }
  split; [split_and!; [apply sample_served|lia..|exact Hgen]|].
  exact (unsolvable_puzzle_contract σ sample_words 5 "atphnsael" σ'
           (sample_served _) ltac:(lia) Hgen).
Defined.

(** C2, as stated, fails: from the lines [a b] and [eb] the generator
    returns, for difficulty 3, a permutation of the mutation [e b] that
    starts with the blank; its signature is in no class of the index, yet
    [solve] strips the blank and returns the word [eb]. *)
Lemma unsolvable_puzzle_solved :
  let σ := fresh (Some ["a b" +:+ newline; "eb" +:+ newline]) [2; 0; 0]%nat in
  let σ' := (generate_puzzle (Some 3) true σ).2 in
  run (generate_puzzle (Some 3) true) σ = Ok " eb"%string
  ∧ (∃ m, _ANAGRAM_MAP σ' = Some m ∧ m !! _signature " eb" = None)
  ∧ run (solve " eb") σ' = Ok ["eb"%string].
Proof.
  split_and!; [reflexivity| |reflexivity].
  eexists. split; [reflexivity|]. vm_compute. reflexivity.
Qed.

(** ** Every permutation is an outcome of [shuffle]

    The draws are free, so the model of the random module leaves out no
    outcome: whatever permutation of its argument is wanted, some draws
    make [shuffle] return it. *)

Lemma swap_app_l {A} i j (x s : list A) :
  (i < length x)%nat → (j < length x)%nat →
  swap i j (x ++ s) = swap i j x ++ s.
Proof.
  intros Hi Hj. unfold swap. rewrite !lookup_app_l by done.
  destruct (x !! i); [|done]. destruct (x !! j); [|done].
  rewrite insert_app_l by done.
  rewrite insert_app_l by by rewrite length_insert. done.
Qed.

Lemma snoc_of_last {A} (l : list A) m a :
  length l = S m → l !! m = Some a → l = take m l ++ [a].
Proof.
  intros Hlen Hm. rewrite <- (take_S_r l m a Hm).
  symmetry. apply take_ge. lia.
Qed.

Lemma swap_to_last {A} (x : list A) m j a :
  length x = S m → x !! j = Some a →
  ∃ x', swap m j x = x' ++ [a] ∧ length x' = m.
Proof.
  intros Hlen Hj. exists (take m (swap m j x)).
  assert (swap m j x !! m = Some a) as Hm.
  { destruct (lookup_lt_is_Some_2 x m) as [b Hb]; [lia|].
    unfold swap. rewrite Hb, Hj.
    destruct (decide (j = m)) as [->|Hne].
    - rewrite list_lookup_insert_eq by (rewrite length_insert; lia). congruence.
    - rewrite list_lookup_insert_ne by done.
      apply list_lookup_insert_eq. lia. }
  split.
  - apply snoc_of_last; [by rewrite swap_length|done].
  - rewrite length_take, swap_length. lia.
Qed.

Lemma shuffle_loop_complete {A} m (x t s : list A) σ rest :
  length x = S m → t ≡ₚ x →
  ∃ draws,
    for_each (rev (seq 1 m)) (x ++ s)
      (λ i x, j ← randbelow (S i); mret (swap i j x))
      (set_random_draws (draws ++ rest) σ)
    = (Ok (t ++ s), set_random_draws rest σ).
Proof.
  revert x t s σ. induction m as [|m IH]; intros x t s σ Hlen Hperm.
  - exists []. destruct x as [|a [|]]; try done.
    apply Permutation_singleton_r in Hperm as ->. done.
  - destruct t as [|tl t' _] using rev_ind.
    { apply Permutation_nil_l in Hperm. by subst x. }
    assert (tl ∈ x) as Hin by (rewrite <- Hperm; set_solver).
    apply list_elem_of_lookup in Hin as [j Hj].
    pose proof (lookup_lt_Some _ _ _ Hj) as Hjlt.
    destruct (swap_to_last x (S m) j tl Hlen Hj) as (x' & Hswap & Hlen').
    assert (t' ≡ₚ x') as Hperm'.
    { apply (Permutation_app_inv_r [tl]).
      by rewrite Hperm, <- Hswap, swap_Permutation. }
    destruct (IH x' t' (tl :: s) (set_random_draws ((j :: []) ++ rest) σ)
                Hlen' Hperm') as [draws Hrun].
    exists (j :: draws).
    rewrite seq_S, rev_app_distr. cbn [rev app for_each].
    erewrite bind_ok; [|erewrite bind_ok by reflexivity; reflexivity].
    rewrite Nat.mod_small by lia. change (1 + m)%nat with (S m).
    rewrite swap_app_l by lia. rewrite Hswap, <- !app_assoc. cbn [app].
    exact Hrun.
Qed.

Lemma shuffle_reaches_every_permutation {A} (x t : list A) σ :
  t ≡ₚ x →
  ∃ draws, shuffle x (set_random_draws draws σ) = (Ok t, set_random_draws [] σ).
Proof.
  intros Hperm. unfold shuffle. destruct (length x) as [|m] eqn:Hlen.
  - exists []. apply nil_length_inv in Hlen. subst x.
    apply Permutation_nil_r in Hperm. by subst t.
  - destruct (shuffle_loop_complete m x t [] σ [] Hlen Hperm) as [draws Hrun].
    exists draws. rewrite !app_nil_r in Hrun.
    replace (S m - 1)%nat with m by lia. exact Hrun.
Qed.

(** * Further properties of the module *)

(** ** Signatures *)

(** X1. The signature is a canonical form of the anagram class: two
    strings have the same signature exactly when one is a permutation of
    the other; a signature is a permutation of its string, sorted by code
    point, of the same length, and its own signature. *)
Theorem signature_is_canonical s t :
  (_signature s = _signature t ↔ Py.chars s ≡ₚ Py.chars t)
  ∧ Py.chars (_signature s) ≡ₚ Py.chars s
  ∧ Sorted Py.char_le (Py.chars (_signature s))
  ∧ Py.len (_signature s) = Py.len s
  ∧ _signature (_signature s) = _signature s.
Proof.
  split_and!.
  - apply signature_eq_iff.
  - apply chars_signature.
  - unfold _signature. rewrite chars_join. apply sorted_Sorted.
  - unfold Py.len. by rewrite chars_signature.
  - apply signature_eq_iff, chars_signature.
Qed.

(** ** Validation *)

(** X2. What [_validate_input] accepts is normalized: the result is
    non-empty, made of letters, unchanged by [lower] and by [strip], and
    validating it again, under any name, returns it unchanged. *)
Theorem validate_input_idempotent s name n :
  _validate_input s name = Ok n →
  n ≠ EmptyString ∧ alphabetic n ∧ Py.lower n = n ∧ Py.strip n = n
  ∧ ∀ name', _validate_input n name' = Ok n.
Proof.
  intros Hv. apply validate_input_ok in Hv as (-> & Hne & Ha).
  assert (Py.lower (Py.lower (Py.strip s)) = Py.lower (Py.strip s)) as Hl
    by apply lower_idemp.
  split_and!; [done..|apply strip_lower_strip|].
  intros name'. by apply validate_input_fixed.
Qed.

Lemma validate_input_idempotent_witness :
  _validate_input "  DoG " "puzzle" = Ok "dog"%string
  ∧ "dog"%string ≠ EmptyString ∧ alphabetic "dog"
  ∧ Py.lower "dog" = "dog"%string ∧ Py.strip "dog" = "dog"%string
  ∧ ∀ name', _validate_input "dog" name' = Ok "dog"%string.
Proof.
  split; [reflexivity|].
  exact (validate_input_idempotent "  DoG " "puzzle" "dog" eq_refl).
Defined.

(** ** Queries *)

(** X3. [solve] sees a puzzle only through the letters of its normalized
    form: two puzzles that pass validation and are anagrams of each other
    get the same answer, and every word of the answer is a dictionary word
    that is a permutation of the normalized puzzle. *)
Theorem solve_respects_anagrams σ words p q pn qn :
  serves σ words →
  _validate_input p "puzzle" = Ok pn → _validate_input q "puzzle" = Ok qn →
  Py.chars pn ≡ₚ Py.chars qn →
  ∃ sols, run (solve p) σ = Ok sols ∧ run (solve q) σ = Ok sols
    ∧ ∀ w, w ∈ sols →
        w ∈ words ∧ Py.chars w ≡ₚ Py.chars pn ∧ Py.len w = Py.len pn.
Proof.
  intros Hs Hp Hq Hperm.
  destruct (solve_run σ words p Hs) as (σ1 & Hrp & _).
  destruct (solve_run σ words q Hs) as (σ2 & Hrq & _).
  apply signature_eq_iff in Hperm as Hsig.
  exists (filter (λ w, _signature w = _signature pn) words). split_and!.
  - unfold run. rewrite Hrp. unfold solve_answer. by rewrite Hp.
  - unfold run. rewrite Hrq. unfold solve_answer. by rewrite Hq, Hsig.
  - intros w [Hw Hin]%list_elem_of_filter. apply signature_eq_iff in Hw.
    split_and!; [done..|]. unfold Py.len. by rewrite Hw.
Qed.

Lemma solve_respects_anagrams_witness :
  let σ := fresh (Some sample_file) [] in
  (serves σ sample_words
   ∧ _validate_input "TAC" "puzzle" = Ok "tac"%string
   ∧ _validate_input " cta" "puzzle" = Ok "cta"%string
   ∧ Py.chars "tac" ≡ₚ Py.chars "cta")
  ∧ ∃ sols, run (solve "TAC") σ = Ok sols ∧ run (solve " cta") σ = Ok sols
      ∧ ∀ w, w ∈ sols →
          w ∈ sample_words ∧ Py.chars w ≡ₚ Py.chars "tac"
          ∧ Py.len w = Py.len "tac".
Proof.
  intros σ.
  assert (Py.chars "tac" ≡ₚ Py.chars "cta") as Hperm.
  { apply sorted_eq_iff. reflexivity. }
  split; [split_and!; [apply sample_served|reflexivity..|exact Hperm]|].
  exact (solve_respects_anagrams σ sample_words "TAC" " cta" "tac" "cta"
           (sample_served _) eq_refl eq_refl Hperm).
Defined.

(** ** The built index *)

Lemma solve_when_built σ puzzle :
  initialized σ = true →
  solve puzzle σ =
  (match _ANAGRAM_MAP σ with
   | None => Raise AssertionError
   | Some anagram_map =>
       match _validate_input puzzle "puzzle" with
       | Raise e => Raise e
       | Ok n => Ok (default [] (anagram_map !! _signature n))
       end
   end, σ).
Proof.
  intros Hi. unfold solve.
  erewrite bind_ok by (by apply init_done).
  rewrite bind_run. unfold assert_set at 1. rewrite bind_run. unfold get at 1.
  destruct (_ANAGRAM_MAP σ); [|done].
  unfold mret at 1, M_ret at 1. rewrite bind_run. unfold lift at 1.
  by destruct (_validate_input puzzle "puzzle").
Qed.

Lemma verify_when_built σ puzzle answer :
  initialized σ = true →
  verify puzzle answer σ =
  (match _ANAGRAM_MAP σ with
   | None => Raise AssertionError
   | Some anagram_map =>
       match _validate_input puzzle "puzzle" with
       | Raise e => Raise e
       | Ok pn =>
           match _validate_input answer "answer" with
           | Raise e => Raise e
           | Ok an =>
               Ok (if decide (_signature pn ≠ _signature an) then false
                   else bool_decide
                          (an ∈ default [] (anagram_map !! _signature pn)))
           end
       end
   end, σ).
Proof.
  intros Hi. unfold verify.
  erewrite bind_ok by (by apply init_done).
  rewrite bind_run. unfold assert_set at 1. rewrite bind_run. unfold get at 1.
  destruct (_ANAGRAM_MAP σ); [|done].
  unfold mret at 1, M_ret at 1. rewrite bind_run. unfold lift at 1.
  destruct (_validate_input puzzle "puzzle"); [|done].
  rewrite bind_run. unfold lift at 1.
  destruct (_validate_input answer "answer"); [|done].
  by destruct (decide _).
Qed.

(** X4. Once the index and the buckets are set, the module treats them as
    read-only: [solve] and [verify] leave the whole world as it is
    (they consume no random draw), [generate_puzzle] changes nothing but
    the random draws, and the answers of [solve] and [verify] no longer
    depend on the file: replacing or removing it changes nothing. *)
Theorem built_index_is_read_only σ puzzle answer difficulty unsolvable file draws :
  initialized σ = true →
  (solve puzzle σ).2 = σ
  ∧ (verify puzzle answer σ).2 = σ
  ∧ same_globals σ (generate_puzzle difficulty unsolvable σ).2
  ∧ run (solve puzzle) (outside file draws σ) = run (solve puzzle) σ
  ∧ run (verify puzzle answer) (outside file draws σ)
    = run (verify puzzle answer) σ.
Proof.
  intros Hi.
  assert (initialized (outside file draws σ) = true) as Hi' by exact Hi.
  split_and!.
  - by rewrite solve_when_built.
  - by rewrite verify_when_built.
  - pose proof (generate_puzzle_final difficulty unsolvable σ) as Hg.
    by rewrite (init_done σ Hi) in Hg.
  - unfold run. by rewrite !solve_when_built.
  - unfold run. by rewrite !verify_when_built.
Qed.

Lemma built_index_is_read_only_witness :
  let σ := (_init (fresh (Some sample_file) [3; 1]%nat)).2 in
  initialized σ = true
  ∧ (solve "dgo" σ).2 = σ
  ∧ (verify "dgo" "god" σ).2 = σ
  ∧ same_globals σ (generate_puzzle (Some 2) false σ).2
  ∧ run (solve "dgo") (outside None [] σ) = run (solve "dgo") σ
  ∧ run (verify "dgo" "god") (outside None [] σ) = run (verify "dgo" "god") σ.
Proof.
  intros σ.
  assert (initialized σ = true) as Hi by (vm_compute; reflexivity).
  split; [exact Hi|].
  exact (built_index_is_read_only σ "dgo" "god" (Some 2) false None [] Hi).
Defined.


(** ** Difficulties that [generate_puzzle] accepts *)

Lemma not_in_rounds d :
  ¬ (1 ≤ d ≤ 5) → bool_decide (d ∈ [1; 2; 3; 4; 5]) = false.
Proof.
  intros Hd. apply bool_decide_eq_false. intros Hin.
  repeat (apply elem_of_cons in Hin as [->|Hin]; [lia|]).
  by apply elem_of_nil in Hin.
Qed.

(** X6. A difficulty outside 1..5 is refused after initialization with the
    invalid-difficulty error, whatever the unsolvable flag; no random draw
    is consumed. *)
Theorem generate_puzzle_rejects_difficulty σ words d unsolvable :
  serves σ words → ¬ (1 ≤ d ≤ 5) →
  ∃ σ1, _init σ = (Ok (), σ1)
    ∧ generate_puzzle (Some d) unsolvable σ
      = (Raise (ValueError bad_difficulty_msg), σ1)
    ∧ random_draws σ1 = random_draws σ.
Proof.
  intros Hs Hd.
  destruct (init_serves σ words Hs) as (σ1 & Hinit & _ & Hbw & Hdraws & _).
  exists σ1. split_and!; [done| |done].
  unfold generate_puzzle.
  erewrite bind_ok by exact Hinit.
  erewrite bind_ok by (by apply assert_set_run).
  erewrite bind_ok by reflexivity.
  by rewrite (not_in_rounds d Hd).
Qed.

Lemma generate_puzzle_rejects_difficulty_witness :
  let σ := fresh (Some sample_file) [4; 2]%nat in
  (serves σ sample_words ∧ ¬ (1 ≤ 6 ≤ 5))
  ∧ ∃ σ1, _init σ = (Ok (), σ1)
      ∧ generate_puzzle (Some 6) true σ
        = (Raise (ValueError bad_difficulty_msg), σ1)
      ∧ random_draws σ1 = random_draws σ.
Proof.
  intros σ. split; [split; [apply sample_served|lia]|].
  exact (generate_puzzle_rejects_difficulty σ sample_words 6 true
           (sample_served _) ltac:(lia)).
Defined.



(** ** Vowel mutations *)

Lemma lookup_enumerate {A} (l : list A) i x :
  l !! i = Some x → (i, x) ∈ enumerate l.
Proof.
  intros Hi. unfold enumerate. apply list_elem_of_lookup. exists i.
  apply lookup_zip_with_Some. exists i, x. split_and!; [done| |done].
  apply lookup_seq. split; [done|]. by eapply lookup_lt_Some.
Qed.

Lemma single_vowel_mutations_complete w m :
  vowel_mutation w m → m ∈ _single_vowel_mutations w.
Proof.
  intros (pos & current & v & Hpos & Hc & Hv & Hne & Hm).
  unfold _single_vowel_mutations.
  apply list_elem_of_bind. exists pos. split.
  - rewrite Hpos. apply list_elem_of_bind. exists v. split.
    + rewrite decide_False by done. apply list_elem_of_singleton.
      apply chars_inj. by rewrite chars_join.
    + by apply vowel_cases.
  - apply list_elem_of_fmap. exists (pos, current). split; [done|].
    apply list_elem_of_filter. split; [done|]. by apply lookup_enumerate.
Qed.

Lemma insert_inj_value {A} (l : list A) i x y :
  (i < length l)%nat → <[i:=x]> l = <[i:=y]> l → x = y.
Proof.
  intros Hi E. apply (f_equal (λ k, k !! i)) in E.
  rewrite !list_lookup_insert_eq in E by done. congruence.
Qed.

Lemma insert_inj_place {A} (l : list A) i j x y a :
  l !! i = Some a → x ≠ a → (j < length l)%nat →
  <[i:=x]> l = <[j:=y]> l → i = j.
Proof.
  intros Hi Hne Hj E. destruct (decide (i = j)) as [|Hij]; [done|].
  apply (f_equal (λ k, k !! i)) in E.
  rewrite list_lookup_insert_eq in E by by eapply lookup_lt_Some.
  rewrite list_lookup_insert_ne in E by done. congruence.
Qed.

Lemma enumerate_NoDup {A} (l : list A) : NoDup (enumerate l).
Proof. unfold enumerate. apply NoDup_zip_l, NoDup_seq. Qed.

Lemma vowel_positions_NoDup (letters : list ascii) :
  NoDup (filter (λ p : nat * ascii, is_vowel p.2 = true) (enumerate letters)).*1.
Proof.
  apply NoDup_fmap_fst.
  - intros i x y [_ Hx]%list_elem_of_filter [_ Hy]%list_elem_of_filter.
    apply enumerate_lookup in Hx, Hy. congruence.
  - apply NoDup_filter, enumerate_NoDup.
Qed.

Lemma single_vowel_mutations_NoDup w : NoDup (_single_vowel_mutations w).
Proof.
  unfold _single_vowel_mutations. set (letters := Py.chars w).
  assert (∀ pos y, y ∈ match letters !! pos with
                       | None => []
                       | Some current =>
                           v ← Py.chars "aeiou";
                           if decide (v = current) then []
                           else [Py.join (<[pos:=v]> letters)]
                       end →
          ∃ current v, letters !! pos = Some current ∧ v ≠ current
                       ∧ y = Py.join (<[pos:=v]> letters)) as Hshape.
  { intros pos y Hy. destruct (letters !! pos) as [current|];
      [|by apply elem_of_nil in Hy].
    apply list_elem_of_bind in Hy as (v & Hy & _).
    destruct (decide (v = current)); [by apply elem_of_nil in Hy|].
    apply list_elem_of_singleton in Hy. by exists current, v. }
  apply NoDup_bind.
  - intros p1 p2 y _ _ H1 H2.
    apply Hshape in H1 as (c1 & v1 & Hc1 & Hn1 & ->).
    apply Hshape in H2 as (c2 & v2 & Hc2 & Hn2 & E).
    apply join_inj in E.
    eapply insert_inj_place; [done..| |done]. by eapply lookup_lt_Some.
  - intros pos _. destruct (letters !! pos) as [current|] eqn:Hpos;
      [|constructor].
    apply NoDup_bind.
    + intros v1 v2 y _ _ H1 H2.
      destruct (decide (v1 = current)); [by apply elem_of_nil in H1|].
      destruct (decide (v2 = current)); [by apply elem_of_nil in H2|].
      apply list_elem_of_singleton in H1, H2. subst y.
      apply join_inj in H2.
      eapply insert_inj_value; [|done]. by eapply lookup_lt_Some.
    + intros v _. destruct (decide (v = current)); [constructor|].
      apply NoDup_singleton.
    + apply (bool_decide_unpack _). vm_compute. exact I.
  - apply vowel_positions_NoDup.
Qed.

Lemma length_bind_const {A B} (f : A → list B) (l : list A) k :
  (∀ x, x ∈ l → length (f x) = k) → length (l ≫= f) = (k * length l)%nat.
Proof.
  induction l as [|x l IH]; intros Hf; [simpl; lia|].
  rewrite bind_cons, length_app, IH, Hf; [simpl; lia|left|].
  intros y Hy. apply Hf. by right.
Qed.

Lemma length_vowel_positions (l : list ascii) n :
  length (filter (λ p : nat * ascii, is_vowel p.2 = true)
            (zip (seq n (length l)) l))
  = length (filter (λ c, is_vowel c = true) l).
Proof.
  revert n. induction l as [|c l IH]; intros n; [done|].
  cbn [length seq zip_with]. rewrite !filter_cons. cbn [snd].
  destruct (decide (is_vowel c = true)); cbn [length]; by rewrite IH.
Qed.

Lemma four_other_vowels (letters : list ascii) pos current :
  is_vowel current = true →
  length (v ← Py.chars "aeiou";
          if decide (v = current) then []
          else [Py.join (<[pos:=v]> letters)]) = 4%nat.
Proof.
  rewrite vowel_cases. intros Hv.
  repeat (apply elem_of_cons in Hv as [->|Hv]; [reflexivity|]).
  by apply elem_of_nil in Hv.
Qed.

Lemma single_vowel_mutations_length w :
  length (_single_vowel_mutations w)
  = (4 * length (filter (λ c, is_vowel c = true) (Py.chars w)))%nat.
Proof.
  unfold _single_vowel_mutations. set (letters := Py.chars w).
  rewrite (length_bind_const _ _ 4).
  - rewrite length_fmap. unfold enumerate.
    by rewrite length_vowel_positions.
  - intros pos Hpos.
    apply list_elem_of_fmap in Hpos as ([i ch] & -> & Hp).
    apply list_elem_of_filter in Hp as [Hv Hp]. cbn [fst snd] in *.
    apply enumerate_lookup in Hp. rewrite Hp.
    by apply four_other_vowels.
Qed.

(** Replacing one item of a list by a different one leaves no permutation
    of the list. *)
Lemma insert_not_Permutation (l : list ascii) i a x :
  l !! i = Some a → x ≠ a → ¬ (<[i:=x]> l ≡ₚ l).
Proof.
  intros Hi Hne Hperm.
  assert (length (filter (λ c, c = x) (<[i:=x]> l))
          = length (filter (λ c, c = x) l)) as E by by rewrite Hperm.
  pose proof (lookup_lt_Some _ _ _ Hi) as Hlt.
  rewrite <- (take_drop_middle l i a Hi) in E at 2.
  rewrite <- (take_drop_middle l i a Hi) in E at 1.
  rewrite insert_app_r_alt in E by (rewrite length_take; lia).
  rewrite length_take in E. replace (i - i `min` length l)%nat with 0%nat in E by lia.
  cbn [insert list_insert] in E.
  rewrite !filter_app, !filter_cons, !length_app in E.
  rewrite decide_True in E by done. rewrite decide_False in E by done.
  cbn [length] in E. lia.
Qed.

(** X8. [_single_vowel_mutations] yields exactly the strings that differ
    from the word in one vowel position, where another vowel stands; it
    yields none of them twice, four for each vowel of the word, and none
    is the word itself or an anagram of it: every mutation has the length
    of the word and a different signature. *)
Theorem single_vowel_mutations_exact w :
  (∀ m, m ∈ _single_vowel_mutations w ↔ vowel_mutation w m)
  ∧ NoDup (_single_vowel_mutations w)
  ∧ length (_single_vowel_mutations w)
    = (4 * length (filter (λ c, is_vowel c = true) (Py.chars w)))%nat
  ∧ (∀ m, m ∈ _single_vowel_mutations w →
       m ≠ w ∧ Py.len m = Py.len w ∧ _signature m ≠ _signature w).
Proof.
  split_and!.
  - intros m. split; [apply single_vowel_mutations_sound
                     |apply single_vowel_mutations_complete].
  - apply single_vowel_mutations_NoDup.
  - apply single_vowel_mutations_length.
  - intros m Hm. apply single_vowel_mutations_sound in Hm
      as (pos & current & v & Hpos & _ & _ & Hne & Hchars).
    assert (_signature m ≠ _signature w) as Hsig.
    { rewrite signature_eq_iff, Hchars.
      by apply (insert_not_Permutation _ _ current). }
    split_and!; [by intros ->| |done].
    unfold Py.len. by rewrite Hchars, length_insert.
Qed.

Example single_vowel_mutations_idea :
  _single_vowel_mutations "idea"
  = ["adea"; "edea"; "odea"; "udea"; "idaa"; "idia"; "idoa"; "idua";
     "idee"; "idei"; "ideo"; "ideu"]%string.
Proof. reflexivity. Qed.

Example single_vowel_mutations_none : _single_vowel_mutations "rhythm" = [].
Proof. reflexivity. Qed.

(** ** The unsolvable path *)

(** Every way [_generate_unsolvable_from_words] can end. *)
Lemma generate_unsolvable_outcomes words σ anagram_map :
  _ANAGRAM_MAP σ = Some anagram_map →
  let vowelled := filter (λ w, existsb is_vowel (Py.chars w) = true) words in
  match (_generate_unsolvable_from_words words σ).1 with
  | Ok p =>
      ∃ base mutated,
        base ∈ vowelled ∧ mutated ∈ _single_vowel_mutations base
        ∧ anagram_map !! _signature mutated = None
        ∧ Py.chars p ≡ₚ Py.chars mutated
  | Raise e =>
      (vowelled = [] ∧ e = RuntimeError no_vowels_msg)
      ∨ (vowelled ≠ [] ∧ e = RuntimeError exhausted_msg
         ∧ ∀ base mutated,
             base ∈ vowelled → mutated ∈ _single_vowel_mutations base →
             anagram_map !! _signature mutated ≠ None)
  end.
Proof.
  intros Ham vowelled. unfold _generate_unsolvable_from_words.
  erewrite bind_ok by (by apply assert_set_run).
  fold vowelled.
  destruct vowelled as [|w0 ws0] eqn:Hv; [by left|].
  rewrite <- Hv. assert (vowelled ≠ []) as Hne by by rewrite Hv.
  clear w0 ws0 Hv.
  destruct (shuffle_run vowelled σ) as (shuffled & σ1 & Hsh & Hperm & _).
  erewrite bind_ok by exact Hsh.
  set (P := λ (p : string) (σ2 : world), ∃ base mutated,
          base ∈ vowelled ∧ mutated ∈ _single_vowel_mutations base
          ∧ anagram_map !! _signature mutated = None
          ∧ Py.chars p ≡ₚ Py.chars mutated).
  destruct (for_return_spec P
    (λ base, ∀ mutated, mutated ∈ _single_vowel_mutations base →
               anagram_map !! _signature mutated ≠ None)
    (λ base, for_return (_single_vowel_mutations base) (λ mutated,
       let sig := _signature mutated in
       if decide (anagram_map !! sig = None)
       then p ← _shuffle_not_identity mutated; mret (Some p)
       else mret None))
    shuffled σ1) as (r & σ2 & Hrun & Hr).
  - intros base Hbase. rewrite Hperm in Hbase.
    destruct (for_return_spec P
      (λ mutated, anagram_map !! _signature mutated ≠ None)
      (λ mutated,
         let sig := _signature mutated in
         if decide (anagram_map !! sig = None)
         then p ← _shuffle_not_identity mutated; mret (Some p)
         else mret None)
      (_single_vowel_mutations base) σ1) as (r & σ2 & Hrun & Hr).
    + intros mutated Hmut. cbv zeta.
      destruct (decide (anagram_map !! _signature mutated = None)) as [Hn|Hs].
      * destruct (shuffle_not_identity_spec mutated σ1)
          as (q & σ2 & Hq & _ & Hpq & _).
        exists (Some q), σ2. split; [by erewrite bind_ok by exact Hq|].
        by exists base, mutated.
      * by exists None, σ1.
    + by exists r, σ2.
  - erewrite bind_ok by exact Hrun. destruct r as [q|]; [exact Hr|].
    right. destruct Hr as [_ HQ]. split_and!; [done..|].
    intros base mutated Hbase. apply HQ. by rewrite Hperm.
Qed.

(** X9. With the unsolvable flag and a difficulty 1..5, [generate_puzzle]
    ends in one of three ways. No word of the bucket has a vowel: the
    no-vowels error. Every single-vowel mutation of every word with a vowel
    has a signature of the index: the exhausted error. Otherwise it
    returns a permutation of such a mutation whose signature the index
    does not hold; so it gives up only when no mutation would do. *)
Theorem unsolvable_generator_outcomes σ words d :
  serves σ words → 1 ≤ d ≤ 5 →
  ∃ bucket,
    buckets_of words !! d = Some bucket ∧
    let vowelled := filter (λ w, existsb is_vowel (Py.chars w) = true) bucket in
    match run (generate_puzzle (Some d) true) σ with
    | Ok p =>
        ∃ base mutated,
          base ∈ vowelled ∧ mutated ∈ _single_vowel_mutations base
          ∧ anagram_index words !! _signature mutated = None
          ∧ Py.chars p ≡ₚ Py.chars mutated
    | Raise e =>
        (vowelled = [] ∧ e = RuntimeError no_vowels_msg)
        ∨ (vowelled ≠ [] ∧ e = RuntimeError exhausted_msg
           ∧ ∀ base mutated,
               base ∈ vowelled → mutated ∈ _single_vowel_mutations base →
               anagram_index words !! _signature mutated ≠ None)
    end.
Proof.
  intros Hs Hd.
  destruct (generate_puzzle_enters σ words d true Hs Hd)
    as (σ1 & bucket & _ & Hb & _ & _ & Ham & Hgen).
  exists bucket. split; [done|]. unfold run. rewrite Hgen. cbn [negb].
  by apply generate_unsolvable_outcomes.
Qed.

Lemma unsolvable_generator_outcomes_witness :
  let σ := fresh (Some ["a"; "e"; "i"; "o"; "u"; "s"]%string) [2; 1]%nat in
  let words := ["a"; "e"; "i"; "o"; "u"; "s"]%string in
  (serves σ words ∧ 1 ≤ 2 ≤ 5)
  ∧ run (generate_puzzle (Some 2) true) σ = Raise (RuntimeError exhausted_msg)
  ∧ ∃ bucket,
      buckets_of words !! 2 = Some bucket ∧
      let vowelled := filter (λ w, existsb is_vowel (Py.chars w) = true) bucket in
      match run (generate_puzzle (Some 2) true) σ with
      | Ok p =>
          ∃ base mutated,
            base ∈ vowelled ∧ mutated ∈ _single_vowel_mutations base
            ∧ anagram_index words !! _signature mutated = None
            ∧ Py.chars p ≡ₚ Py.chars mutated
      | Raise e =>
          (vowelled = [] ∧ e = RuntimeError no_vowels_msg)
          ∨ (vowelled ≠ [] ∧ e = RuntimeError exhausted_msg
             ∧ ∀ base mutated,
                 base ∈ vowelled → mutated ∈ _single_vowel_mutations base →
                 anagram_index words !! _signature mutated ≠ None)
      end.
Proof.
  intros σ words.
  assert (serves σ words) as Hs.
  { by apply (serves_lazy σ ["a"; "e"; "i"; "o"; "u"; "s"]%string). }
  split; [split; [exact Hs|lia]|]. split; [vm_compute; reflexivity|].
  exact (unsolvable_generator_outcomes σ words 2 Hs ltac:(lia)).
Defined.

Example unsolvable_without_vowels :
  run (generate_puzzle (Some 4) true) (fresh (Some ["by"; "my"]%string) [])
  = Raise (RuntimeError no_vowels_msg).
Proof. reflexivity. Qed.

(** ** The structure of the index *)

(** X10. After initialization the index holds, under each signature that
    some dictionary word has, exactly the dictionary words of that
    signature in file order, and no other key: no class is empty, every
    word is in the class of its own signature and in no other, and it is
    there as often as it is in the dictionary. *)
Theorem anagram_index_partitions σ words :
  serves σ words →
  ∃ σ' m,
    _init σ = (Ok (), σ') ∧ _ANAGRAM_MAP σ' = Some m
    ∧ (∀ k, m !! k = match filter (λ w, _signature w = k) words with
                     | [] => None
                     | class => Some class
                     end)
    ∧ (∀ k class, m !! k = Some class → class ≠ [])
    ∧ (∀ k class w, m !! k = Some class → w ∈ class →
         w ∈ words ∧ _signature w = k)
    ∧ (∀ w, w ∈ words →
         ∃ class, m !! _signature w = Some class ∧ w ∈ class
           ∧ length (filter (λ v, v = w) class)
             = length (filter (λ v, v = w) words)).
Proof.
  intros Hs.
  destruct (init_serves σ words Hs) as (σ' & Hinit & Ham & _).
  assert (∀ k, anagram_index words !! k
               = match filter (λ w, _signature w = k) words with
                 | [] => None
                 | class => Some class
                 end) as Hlook.
  { intros k. unfold anagram_index.
    rewrite (group_lookup _signature), lookup_empty.
    by destruct (filter _ words). }
  exists σ', (anagram_index words). split_and!; try done.
  - intros k class. rewrite Hlook.
    destruct (filter _ words); [done|]. by intros [= <-].
  - intros k class w. rewrite Hlook.
    destruct (filter _ words) as [|x l] eqn:E; [done|]. intros [= <-] Hw.
    rewrite <- E in Hw. by apply list_elem_of_filter in Hw as [? ?].
  - intros w Hw. rewrite Hlook.
    assert (w ∈ filter (λ v, _signature v = _signature w) words) as Hin
      by by apply list_elem_of_filter.
    destruct (filter _ words) as [|x l] eqn:E; [by apply elem_of_nil in Hin|].
    eexists. split_and!; [done..|]. rewrite <- E, list_filter_filter.
    f_equal. apply list_filter_iff. intros v. split; [by intros [? _]|].
    by intros ->.
Qed.

Lemma anagram_index_partitions_witness :
  let σ := fresh (Some sample_file) [] in
  serves σ sample_words
  ∧ ∃ σ' m,
      _init σ = (Ok (), σ') ∧ _ANAGRAM_MAP σ' = Some m
      ∧ m !! "dgo"%string = Some ["dog"; "god"]%string
      ∧ m !! "xyz"%string = None.
Proof.
  intros σ. split; [apply sample_served|].
  destruct (anagram_index_partitions σ sample_words (sample_served _))
    as (σ' & m & Hinit & Hm & Hlook & _).
  exists σ', m. split_and!; [done..| |].
  - exact (Hlook "dgo"%string).
  - exact (Hlook "xyz"%string).
Defined.

(** ** The structure of the buckets *)

Lemma length_buckets_keys words k :
  words ≠ [] → is_Some (length_buckets words !! k) → 1 ≤ k ≤ 5.
Proof.
  intros Hne [l Hl].
  pose proof (length_buckets_lookup words k) as E. rewrite Hl in E.
  unfold length_buckets in Hl.
  rewrite (group_lookup
    (λ w, difficulty (min_length words) (max_length words) (Py.len w)))
    in Hl.
  rewrite lookup_empty in Hl.
  destruct (filter _ words) as [|w ws] eqn:Hf; [done|].
  assert (w ∈ filter (λ w, difficulty (min_length words) (max_length words)
                              (Py.len w) = k) words) as Hw
    by (rewrite Hf; left).
  apply list_elem_of_filter in Hw as [<- _].
  by apply difficulty_range, min_le_max.
Qed.

Lemma filled_keys d m :
  1 ≤ d ≤ 5 →
  (∀ k, is_Some (m !! k) → 1 ≤ k ≤ 5) →
  ∀ k, is_Some (filled d m !! k) → 1 ≤ k ≤ 5.
Proof.
  intros Hd Hm k. unfold filled.
  destruct (truthy (m !! d)); [apply Hm|].
  destruct (find_nearest m d [1; 2; 3; 4]); [|apply Hm].
  destruct (decide (k = d)) as [->|Hne]; [done|].
  rewrite lookup_insert_ne by done. apply Hm.
Qed.

Lemma buckets_of_keys words k :
  words ≠ [] → is_Some (buckets_of words !! k) ↔ 1 ≤ k ≤ 5.
Proof.
  intros Hne. split.
  - unfold buckets_of. cbn [foldl]. revert k.
    do 5 (apply filled_keys; [lia|]).
    intros k. by apply length_buckets_keys.
  - intros Hk. pose proof (buckets_of_truthy words k Hne Hk) as Ht.
    by destruct (buckets_of words !! k).
Qed.

(** A bucket the length rule filled is the same after the fill. *)
Lemma natural_bucket_kept words d :
  truthy (length_buckets words !! d) = true →
  buckets_of words !! d = length_buckets words !! d.
Proof. intros Ht. unfold buckets_of. by apply foldl_filled_keeps. Qed.

Lemma min_length_attained words :
  words ≠ [] → ∃ w, w ∈ words ∧ Py.len w = min_length words.
Proof.
  intros Hne. unfold min_length.
  assert (∀ x l, foldl Z.min x l ∈ x :: l) as Hin.
  { intros x l. revert x. induction l as [|y l IH]; intros x; [left|].
    simpl. specialize (IH (Z.min x y)).
    apply elem_of_cons in IH as [E|IH]; [|by do 2 right].
    rewrite E. destruct (Z.min_spec x y) as [[_ ->]|[_ ->]]; [left|right; left]. }
  destruct words as [|w ws]; [done|]. rewrite fmap_cons.
  specialize (Hin (Py.len w) (Py.len <$> ws)).
  rewrite <- fmap_cons in Hin.
  apply list_elem_of_fmap in Hin as (v & Hv & Hin). by exists v.
Qed.

Lemma max_length_attained words :
  words ≠ [] → ∃ w, w ∈ words ∧ Py.len w = max_length words.
Proof.
  intros Hne. unfold max_length.
  assert (∀ x l, foldl Z.max x l ∈ x :: l) as Hin.
  { intros x l. revert x. induction l as [|y l IH]; intros x; [left|].
    simpl. specialize (IH (Z.max x y)).
    apply elem_of_cons in IH as [E|IH]; [|by do 2 right].
    rewrite E. destruct (Z.max_spec x y) as [[_ ->]|[_ ->]]; [right; left|left]. }
  destruct words as [|w ws]; [done|]. rewrite fmap_cons.
  specialize (Hin (Py.len w) (Py.len <$> ws)).
  rewrite <- fmap_cons in Hin.
  apply list_elem_of_fmap in Hin as (v & Hv & Hin). by exists v.
Qed.

(** X11. After the first call on a file with a non-blank line the buckets
    have exactly the keys 1..5, every word of a bucket is a dictionary
    word, and every dictionary word is in the bucket of the difficulty
    that [_difficulty_for_length] gives to its length. *)
Theorem buckets_hold_the_dictionary σ lines :
  initialized σ = false → dictionary_file σ = Some lines →
  loaded_words lines ≠ [] →
  let words := loaded_words lines in
  ∃ σ' buckets,
    _init σ = (Ok (), σ') ∧ _BUCKET_WORDS σ' = Some buckets
    ∧ (∀ k, is_Some (buckets !! k) ↔ 1 ≤ k ≤ 5)
    ∧ (∀ k bucket w, buckets !! k = Some bucket → w ∈ bucket → w ∈ words)
    ∧ (∀ w, w ∈ words →
         ∃ k bucket, _difficulty_for_length (Py.len w) σ' = (Ok k, σ')
                     ∧ buckets !! k = Some bucket ∧ w ∈ bucket).
Proof.
  intros Hinit Hfile Hne words.
  exists (built_from words σ), (buckets_of words). split_and!.
  - by apply init_builds.
  - done.
  - intros k. by apply buckets_of_keys.
  - apply buckets_of_within.
  - intros w Hw.
    set (k := difficulty (min_length words) (max_length words) (Py.len w)).
    assert (truthy (length_buckets words !! k) = true) as Ht.
    { apply length_buckets_truthy. by exists w. }
    pose proof (length_buckets_lookup words k) as Hl.
    destruct (length_buckets words !! k) as [bucket|] eqn:E; [|done].
    exists k, bucket. split_and!.
    + apply difficulty_run; [done..|]. by apply min_le_max.
    + by rewrite natural_bucket_kept; rewrite E.
    + simpl in Hl. rewrite Hl. by apply list_elem_of_filter.
Qed.

Lemma buckets_hold_the_dictionary_witness :
  let σ := fresh (Some sample_file) [] in
  (initialized σ = false ∧ dictionary_file σ = Some sample_file
   ∧ loaded_words sample_file ≠ [])
  ∧ ∃ σ' buckets,
      _init σ = (Ok (), σ') ∧ _BUCKET_WORDS σ' = Some buckets
      ∧ (∀ k, is_Some (buckets !! k) ↔ 1 ≤ k ≤ 5)
      ∧ (∀ k bucket w, buckets !! k = Some bucket → w ∈ bucket →
           w ∈ loaded_words sample_file)
      ∧ (∀ w, w ∈ loaded_words sample_file →
           ∃ k bucket, _difficulty_for_length (Py.len w) σ' = (Ok k, σ')
                       ∧ buckets !! k = Some bucket ∧ w ∈ bucket).
Proof.
  intros σ. split; [split_and!; done|].
  exact (buckets_hold_the_dictionary σ sample_file eq_refl eq_refl ltac:(done)).
Defined.

(** X12. The first call sets the two global lengths to the least and the
    greatest length of a dictionary word: every word's length lies between
    them, each is the length of some word, and the least is at least 1. *)
Theorem global_lengths_are_extremes σ lines :
  initialized σ = false → dictionary_file σ = Some lines →
  loaded_words lines ≠ [] →
  let words := loaded_words lines in
  ∃ σ' min_len max_len,
    _init σ = (Ok (), σ')
    ∧ _MIN_LEN σ' = Some min_len ∧ _MAX_LEN σ' = Some max_len
    ∧ 1 ≤ min_len ≤ max_len
    ∧ (∀ w, w ∈ words → min_len ≤ Py.len w ≤ max_len)
    ∧ (∃ w, w ∈ words ∧ Py.len w = min_len)
    ∧ (∃ w, w ∈ words ∧ Py.len w = max_len).
Proof.
  intros Hinit Hfile Hne words.
  exists (built_from words σ), (min_length words), (max_length words).
  split_and!; try done.
  - by apply init_builds.
  - destruct (min_length_attained words Hne) as (w & Hw & <-).
    apply loaded_word_shape in Hw as (Hnb & _).
    rewrite <- chars_empty in Hnb. unfold Py.len.
    destruct (Py.chars w); [done|simpl; lia].
  - by apply min_le_max.
  - intros w. apply length_bounds.
  - by apply min_length_attained.
  - by apply max_length_attained.
Qed.

Lemma global_lengths_are_extremes_witness :
  let σ := fresh (Some sample_file) [] in
  (initialized σ = false ∧ dictionary_file σ = Some sample_file
   ∧ loaded_words sample_file ≠ [])
  ∧ ∃ σ', _init σ = (Ok (), σ')
      ∧ _MIN_LEN σ' = Some 1 ∧ _MAX_LEN σ' = Some 9.
Proof.
  intros σ. split; [split_and!; done|].
  destruct (global_lengths_are_extremes σ sample_file eq_refl eq_refl
              ltac:(done)) as (σ' & mn & mx & Hinit & Hmin & Hmax & _).
  exists σ'. split; [exact Hinit|].
  assert (σ' = (_init σ).2) as -> by by rewrite Hinit.
  split; reflexivity.
Defined.

(** *** Where the fill takes a bucket from *)



(** In the round of [d >= 2] the bucket below it has been dealt with, and
    the search looks there first. *)
Lemma filled_from_below before d :
  some_bucket before → 1 ≤ d - 1 ≤ 5 →
  truthy (filled (d - 1) before !! d) = false →
  filled d (filled (d - 1) before) !! d = filled (d - 1) before !! (d - 1).
Proof.
  intros Hsome Hd Hempty.
  pose proof (filled_self (d - 1) before Hd Hsome) as Hbelow.
  set (b := filled (d - 1) before) in *.
  unfold filled. rewrite Hempty. cbn [find_nearest]. rewrite Hbelow.
  rewrite lookup_insert_eq. by destruct (b !! (d - 1)).
Qed.

Lemma carried_forward words pre d post :
  words ≠ [] → [1; 2; 3; 4; 5] = pre ++ (d - 1) :: d :: post →
  truthy (length_buckets words !! d) = false →
  buckets_of words !! d = buckets_of words !! (d - 1).
Proof.
  intros Hne Hsplit Hempty.
  pose proof rounds_NoDup as Hnd. rewrite Hsplit in Hnd.
  apply NoDup_app in Hnd as (_ & Hpre & Hnd).
  apply NoDup_cons in Hnd as [Hd1 Hnd]. apply NoDup_cons in Hnd as [Hd _].
  assert (1 ≤ d - 1 ≤ 5 ∧ 1 ≤ d ≤ 5) as [Hr1 Hr].
  { assert (d - 1 ∈ [1; 2; 3; 4; 5] ∧ d ∈ [1; 2; 3; 4; 5]) as [H1 H2].
    { rewrite Hsplit. split; set_solver. }
    split.
    - repeat (apply elem_of_cons in H1 as [->|H1]; [lia|]).
      by apply elem_of_nil in H1.
    - repeat (apply elem_of_cons in H2 as [->|H2]; [lia|]).
      by apply elem_of_nil in H2. }
  set (before := foldl (λ m k, filled k m) (length_buckets words) pre).
  assert (some_bucket before) as Hsome
    by by apply foldl_filled_some_bucket, length_buckets_some.
  assert (filled (d - 1) before !! d = length_buckets words !! d) as Hd0.
  { rewrite filled_other by lia. apply foldl_filled_other.
    intros Hin. apply (Hpre d Hin). right. left. }
  unfold buckets_of. rewrite Hsplit, foldl_app. cbn [foldl]. fold before.
  assert (truthy (filled (d - 1) before !! (d - 1)) = true) as Hb1
    by by apply filled_self.
  assert (truthy (filled d (filled (d - 1) before) !! d) = true) as Hb2
    by by apply filled_self, filled_some_bucket.
  rewrite !foldl_filled_keeps; try done.
  - rewrite (filled_keeps d (d - 1)) by done.
    apply filled_from_below; [done..|]. by rewrite Hd0.
  - by apply filled_truthy_mono.
Qed.

Lemma out_of_range_falsy words k :
  words ≠ [] → ¬ (1 ≤ k ≤ 5) → truthy (length_buckets words !! k) = false.
Proof.
  intros Hne Hk. destruct (length_buckets words !! k) as [l|] eqn:E; [|done].
  destruct Hk. apply (length_buckets_keys words k Hne). by rewrite E.
Qed.

Lemma first_bucket_from_above words k :
  words ≠ [] → 1 < k ≤ 5 →
  truthy (length_buckets words !! k) = true →
  (∀ j, 1 ≤ j < k → truthy (length_buckets words !! j) = false) →
  buckets_of words !! 1 = length_buckets words !! k.
Proof.
  intros Hne Hk Ht Hbelow. set (b := length_buckets words) in *.
  assert (filled 1 b !! 1 = b !! k) as E.
  { unfold filled. rewrite (Hbelow 1) by lia. cbn [find_nearest].
    assert (∀ j, ¬ (1 ≤ j ≤ 5) → truthy (b !! j) = false) as Hout.
    { intros j Hj. by apply out_of_range_falsy. }
    rewrite (Hout (1 - 1)), (Hout (1 - 2)), (Hout (1 - 3)), (Hout (1 - 4))
      by lia.
    assert (k = 2 ∨ k = 3 ∨ k = 4 ∨ k = 5) as Hc by lia.
    assert (1 + 1 = 2 ∧ 1 + 2 = 3 ∧ 1 + 3 = 4 ∧ 1 + 4 = 5) as (E2 & E3 & E4 & E5)
      by lia.
    rewrite E2, E3, E4, E5.
    destruct Hc as [->|[->|[->| ->]]].
    - rewrite Ht, lookup_insert_eq. by destruct (b !! 2).
    - rewrite (Hbelow 2), Ht, lookup_insert_eq by lia. by destruct (b !! 3).
    - rewrite (Hbelow 2), (Hbelow 3), Ht, lookup_insert_eq by lia.
      by destruct (b !! 4).
    - rewrite (Hbelow 2), (Hbelow 3), (Hbelow 4), Ht, lookup_insert_eq by lia.
      by destruct (b !! 5). }
  unfold buckets_of. cbn [foldl]. fold b.
  assert (truthy (filled 1 b !! 1) = true) as Ht1.
  { apply filled_self; [lia|]. by apply length_buckets_some. }
  rewrite <- E.
  pose proof (filled_truthy_mono 2 1 _ Ht1) as Ht2.
  pose proof (filled_truthy_mono 3 1 _ Ht2) as Ht3.
  pose proof (filled_truthy_mono 4 1 _ Ht3) as Ht4.
  by rewrite (filled_keeps 5 1 _ Ht4), (filled_keeps 4 1 _ Ht3),
       (filled_keeps 3 1 _ Ht2), (filled_keeps 2 1 _ Ht1).
Qed.

(** X13. What the fallback fill puts into a bucket that the length rule
    left empty: bucket [d] for [d] in 2..5 gets what bucket [d - 1] holds
    after the fill, and bucket 1 gets the lowest bucket that the length
    rule filled. A bucket that the length rule filled stays as it is. So
    an empty bucket takes the bucket below it, also when a bucket above is
    nearer to one the length rule filled. *)
Theorem fill_carries_forward σ lines :
  initialized σ = false → dictionary_file σ = Some lines →
  loaded_words lines ≠ [] →
  let natural := length_buckets (loaded_words lines) in
  ∃ σ' buckets,
    _init σ = (Ok (), σ') ∧ _BUCKET_WORDS σ' = Some buckets
    ∧ (∀ d, 1 ≤ d ≤ 5 → truthy (natural !! d) = true →
         buckets !! d = natural !! d)
    ∧ (∀ d, 2 ≤ d ≤ 5 → truthy (natural !! d) = false →
         buckets !! d = buckets !! (d - 1))
    ∧ (∀ k, 1 < k ≤ 5 → truthy (natural !! k) = true →
         (∀ j, 1 ≤ j < k → truthy (natural !! j) = false) →
         buckets !! 1 = natural !! k).
Proof.
  intros Hinit Hfile Hne natural. set (words := loaded_words lines) in *.
  exists (built_from words σ), (buckets_of words). split_and!.
  - by apply init_builds.
  - done.
  - intros d _. apply natural_bucket_kept.
  - intros d Hd Hempty.
    assert (d = 2 ∨ d = 3 ∨ d = 4 ∨ d = 5) as Hc by lia.
    destruct Hc as [->|[->|[->| ->]]].
    + by apply (carried_forward words [] 2 [3; 4; 5]).
    + by apply (carried_forward words [1] 3 [4; 5]).
    + by apply (carried_forward words [1; 2] 4 [5]).
    + by apply (carried_forward words [1; 2; 3] 5 []).
  - intros k. by apply first_bucket_from_above.
Qed.

Lemma fill_carries_forward_witness :
  let lines := ["a"; "abcdefghij"]%string in
  let σ := fresh (Some lines) [] in
  (initialized σ = false ∧ dictionary_file σ = Some lines
   ∧ loaded_words lines ≠ [])
  ∧ length_buckets (loaded_words lines) !! 5 = Some ["abcdefghij"%string]
  ∧ ∃ σ' buckets,
      _init σ = (Ok (), σ') ∧ _BUCKET_WORDS σ' = Some buckets
      ∧ buckets !! 4 = buckets !! (4 - 1)
      ∧ buckets !! 4 = Some ["a"%string].
Proof.
  intros lines σ. split; [split_and!; done|].
  split; [vm_compute; reflexivity|].
  destruct (fill_carries_forward σ lines eq_refl eq_refl ltac:(done))
    as (σ' & buckets & Hinit & Hb & _ & Hcarry & _).
  exists σ', buckets. split_and!; [done..| |].
  - apply (Hcarry 4); [lia|]. vm_compute. reflexivity.
  - assert (σ' = (_init σ).2) as -> by by rewrite Hinit.
    assert (buckets = buckets_of (loaded_words lines)) as ->.
    { vm_compute in Hb. by injection Hb as <-. }
    vm_compute. reflexivity.
Defined.



(** ** The ends of the difficulty scale *)

(** X15. With two different global lengths, the shortest words always
    get difficulty 1, while the longest get difficulty 5 only when the
    lengths span at least five values (maxLen - minLen >= 4); lengths of
    dictionary words never need the clamp, which acts only below minLen
    (difficulty 1) and above maxLen (difficulty 5). *)
Theorem difficulty_scale_ends σ minLen maxLen :
  _MIN_LEN σ = Some minLen → _MAX_LEN σ = Some maxLen → minLen < maxLen →
  run (_difficulty_for_length minLen) σ = Ok 1
  ∧ (run (_difficulty_for_length maxLen) σ = Ok 5 ↔ 4 ≤ maxLen - minLen)
  ∧ (∀ L, minLen ≤ L ≤ maxLen →
       run (_difficulty_for_length L) σ
       = Ok ((L - minLen) * 5 / (maxLen - minLen + 1) + 1))
  ∧ (∀ L, L < minLen → run (_difficulty_for_length L) σ = Ok 1)
  ∧ (∀ L, maxLen < L → run (_difficulty_for_length L) σ = Ok 5).
Proof.
  intros Hmin Hmax Hlt.
  assert (∀ L, run (_difficulty_for_length L) σ
               = Ok (Z.max 1 (Z.min 5
                       ((L - minLen) * 5 / (maxLen - minLen + 1) + 1))))
    as Hrun.
  { intros L. unfold run.
    rewrite (difficulty_run σ minLen maxLen L Hmin Hmax) by lia.
    unfold difficulty. by rewrite decide_False by lia. }
  set (span := maxLen - minLen + 1) in *.
  assert (0 < span) as Hspan by (unfold span; lia).
  assert (∀ L, minLen ≤ L ≤ maxLen → 0 ≤ (L - minLen) * 5 / span ≤ 4) as Hin.
  { intros L HL. split.
    - apply Z.div_pos; lia.
    - assert ((L - minLen) * 5 / span < 5); [|lia].
      apply Z.div_lt_upper_bound; [done|]. unfold span. lia. }
  split_and!.
  - rewrite Hrun. replace ((minLen - minLen) * 5) with 0 by lia.
    rewrite Z.div_0_l by lia. done.
  - rewrite Hrun. pose proof (Hin maxLen ltac:(lia)) as Hb. split.
    + intros [= E].
      assert (4 ≤ (maxLen - minLen) * 5 / span) as H4 by lia.
      assert (4 * span ≤ (maxLen - minLen) * 5); [|unfold span in *; lia].
      etrans; [|apply (Z.mul_div_le _ span); done].
      rewrite (Z.mul_comm span). apply Z.mul_le_mono_nonneg_r; lia.
    + intros Hge. f_equal.
      assert (4 ≤ (maxLen - minLen) * 5 / span); [|lia].
      apply Z.div_le_lower_bound; [done|]. unfold span. lia.
  - intros L HL. rewrite Hrun. pose proof (Hin L HL). f_equal. lia.
  - intros L HL. rewrite Hrun. f_equal.
    assert ((L - minLen) * 5 / span < 0); [|lia].
    apply Z.div_lt_upper_bound; [done|]. lia.
  - intros L HL. rewrite Hrun. f_equal.
    assert (5 ≤ (L - minLen) * 5 / span); [|lia].
    apply Z.div_le_lower_bound; [done|]. unfold span. lia.
Qed.

Lemma difficulty_scale_ends_witness :
  let σ := World None None (Some 3) (Some 4) None [] in
  (_MIN_LEN σ = Some 3 ∧ _MAX_LEN σ = Some 4 ∧ 3 < 4)
  ∧ run (_difficulty_for_length 3) σ = Ok 1
  ∧ run (_difficulty_for_length 4) σ = Ok 3
  ∧ ¬ (4 ≤ 4 - 3).
Proof.
  intros σ.
  pose proof (difficulty_scale_ends σ 3 4 eq_refl eq_refl ltac:(lia))
    as (Hlow & _ & Hin & _).
  split; [split_and!; [reflexivity..|lia]|].
  split_and!; [exact Hlow|exact (Hin 4 ltac:(lia))|lia].
Defined.

(** ** Generated puzzles and the query API together *)

Lemma sample_words_alphabetic w : w ∈ sample_words → alphabetic w.
Proof.
  intros Hw.
  repeat (apply elem_of_cons in Hw as [->|Hw];
          [apply (bool_decide_unpack _); vm_compute; exact I|]).
  by apply elem_of_nil in Hw.
Defined.

(** X16. With a dictionary of alphabetic words, the puzzle that
    [generate_puzzle] makes for a difficulty 1..5 has the length of the
    word it was made from, and [verify] accepts that word as an answer to
    it. *)
Theorem generated_puzzle_verifies σ words d :
  serves σ words → 1 ≤ d ≤ 5 → (∀ w, w ∈ words → alphabetic w) →
  ∃ p σ' base,
    generate_puzzle (Some d) false σ = (Ok p, σ')
    ∧ base ∈ words ∧ Py.len p = Py.len base
    ∧ run (verify p base) σ' = Ok true.
Proof.
  intros Hs Hd Halpha.
  destruct (generate_puzzle_enters σ words d false Hs Hd)
    as (σ1 & bucket & Hinit & Hb & Hne & Hsub & Ham & Hgen).
  cbn [negb] in Hgen.
  destruct (choice_run bucket σ1 Hne) as (base & σ2 & Hch & Hbase & Hg2).
  destruct (shuffle_not_identity_spec base σ2) as (p & σ' & Hsh & Hg3 & Hp & _).
  assert (same_globals σ1 σ') as Hg by by eapply same_globals_trans.
  destruct (serves_same_globals σ σ1 σ' words Hs Hinit Hg) as (Hs' & _ & _).
  destruct (serves_loaded σ words Hs) as [lines Hlines].
  assert (base ∈ words) as Hw by by apply Hsub.
  exists p, σ', base. split_and!; try done.
  - rewrite Hgen. by erewrite bind_ok by exact Hch.
  - unfold Py.len. by rewrite Hp.
  - destruct (verify_run σ' words p base Hs') as (σ3 & Hrun & _).
    unfold run. rewrite Hrun. unfold verify_answer. subst words.
    rewrite (validate_anagram_of_word lines base p) by auto.
    rewrite (validate_anagram_of_word lines base base) by auto.
    cbn [fst]. f_equal. apply andb_true_intro. split.
    + apply bool_decide_eq_true. by apply signature_eq_iff.
    + by apply bool_decide_eq_true.
Qed.

Lemma generated_puzzle_verifies_witness :
  let σ := fresh (Some sample_file) [1; 2; 0; 1]%nat in
  (serves σ sample_words ∧ 1 ≤ 2 ≤ 5
   ∧ (∀ w, w ∈ sample_words → alphabetic w))
  ∧ ∃ p σ' base,
      generate_puzzle (Some 2) false σ = (Ok p, σ')
      ∧ base ∈ sample_words ∧ Py.len p = Py.len base
      ∧ run (verify p base) σ' = Ok true.
Proof.
  intros σ.
  split; [split_and!; [apply sample_served|lia..|apply sample_words_alphabetic]|].
  exact (generated_puzzle_verifies σ sample_words 2 (sample_served _)
           ltac:(lia) sample_words_alphabetic).
Defined.

(** X17. With a dictionary of alphabetic words, no answer is accepted for
    a puzzle that [generate_puzzle] returns with the unsolvable flag:
    [verify] returns false for every answer that passes validation and
    never returns true. *)
Theorem unsolvable_puzzle_never_verified σ words d p σ' :
  serves σ words → 1 ≤ d ≤ 5 → (∀ w, w ∈ words → alphabetic w) →
  generate_puzzle (Some d) true σ = (Ok p, σ') →
  (∀ answer answer_norm,
     _validate_input answer "answer" = Ok answer_norm →
     run (verify p answer) σ' = Ok false)
  ∧ (∀ answer, run (verify p answer) σ' ≠ Ok true).
Proof.
  intros Hs Hd Halpha Hgen.
  destruct (generate_puzzle_enters σ words d true Hs Hd)
    as (σ1 & bucket & Hinit & Hb & Hne & Hsub & Ham & Hgen').
  rewrite Hgen' in Hgen. cbn [negb] in Hgen.
  destruct (generate_unsolvable_spec bucket σ1 _ p σ' Ham Hgen)
    as (base & mutated & Hbase & Hmut & Hnone & Hp & Hg).
  destruct (serves_same_globals σ σ1 σ' words Hs Hinit Hg) as (Hs' & _ & _).
  apply single_vowel_mutations_sound in Hmut.
  assert (base ∈ words) as Hw by by apply Hsub.
  assert (∀ w, w ∈ words → _signature w ≠ _signature p) as Habsent.
  { intros w Hin E.
    assert (_signature p = _signature mutated) as Hsig
      by by apply signature_eq_iff.
    apply anagram_index_None in Hnone.
    eapply (filter_nil_not_elem_of _ _ w); [exact Hnone|congruence|done]. }
  destruct (serves_loaded σ words Hs) as [lines Hlines].
  pose proof (Halpha base Hw) as Ha.
  rewrite Hlines in Hw. apply loaded_word_shape in Hw as (_ & Hlow & _).
  destruct (vowel_mutation_shape base mutated Hmut) as (Hmne & Hmal & Hmlow).
  destruct (anagram_keeps_shape mutated p Hp Hmne (Hmal Ha) (Hmlow Hlow))
    as (Hpne & Hpal & Hplow).
  assert (∀ answer, run (verify p answer) σ'
            = match _validate_input answer "answer" with
              | Raise e => Raise e
              | Ok _ => Ok false
              end) as Hverify.
  { intros answer.
    destruct (verify_run σ' words p answer Hs') as (σ2 & Hrun & _).
    unfold run. rewrite Hrun. unfold verify_answer.
    rewrite (validate_input_fixed p "puzzle" Hpne Hpal Hplow). cbn [fst].
    destruct (_validate_input answer "answer") as [an|e]; [|done].
    f_equal. apply andb_false_iff.
    destruct (decide (an ∈ words)) as [Hin|Hout].
    - left. apply bool_decide_eq_false. intros E.
      by apply (Habsent an Hin).
    - right. by apply bool_decide_eq_false. }
  split.
  - intros answer an Hv. by rewrite Hverify, Hv.
  - intros answer. rewrite Hverify.
    by destruct (_validate_input answer "answer").
Qed.

Lemma unsolvable_puzzle_never_verified_witness :
  let σ := fresh (Some sample_file) [1; 2; 0; 1]%nat in
  let σ' := (generate_puzzle (Some 5) true σ).2 in
  (serves σ sample_words ∧ 1 ≤ 5 ≤ 5
   ∧ (∀ w, w ∈ sample_words → alphabetic w)
   ∧ generate_puzzle (Some 5) true σ = (Ok "atphnsael"%string, σ'))
  ∧ (∀ answer answer_norm,
       _validate_input answer "answer" = Ok answer_norm →
       run (verify "atphnsael" answer) σ' = Ok false)
  ∧ (∀ answer, run (verify "atphnsael" answer) σ' ≠ Ok true).
Proof.
  intros σ σ'.
  assert (generate_puzzle (Some 5) true σ = (Ok "atphnsael"%string, σ')) as Hgen.
  { vm_compute. reflexivity. }
  split; [split_and!;
          [apply sample_served|lia..|apply sample_words_alphabetic|exact Hgen]|].
  exact (unsolvable_puzzle_never_verified σ sample_words 5 "atphnsael" σ'
           (sample_served _) ltac:(lia) sample_words_alphabetic Hgen).
Defined.

(** ** What the functions can raise *)


Lemma generate_puzzle_enters_random σ words unsolvable :
  serves σ words →
  ∃ σ2 d bucket,
    1 ≤ d ≤ 5 ∧ buckets_of words !! d = Some bucket ∧ bucket ≠ []
    ∧ (∀ w, w ∈ bucket → w ∈ words)
    ∧ _ANAGRAM_MAP σ2 = Some (anagram_index words)
    ∧ generate_puzzle None unsolvable σ =
      (if negb unsolvable then base ← choice bucket; _shuffle_not_identity base
       else _generate_unsolvable_from_words bucket) σ2.
Proof.
  intros Hs.
  destruct (init_serves σ words Hs) as (σ1 & Hinit & Ham & Hbw & _).
  destruct (choice_run [1; 2; 3; 4; 5] σ1 ltac:(done))
    as (d & σ2 & Hd & Hin & Hg2).
  assert (1 ≤ d ≤ 5) as Hrange.
  { repeat (apply elem_of_cons in Hin as [->|Hin]; [lia|]).
    by apply elem_of_nil in Hin. }
  destruct (buckets_of_lookup words d (serves_nonempty _ _ Hs) Hrange)
    as (bucket & Hb & Hne & Hsub).
  exists σ2, d, bucket. split_and!; try done; try lia.
  - destruct Hg2 as (E & _). by rewrite E.
  - unfold generate_puzzle.
    erewrite bind_ok by exact Hinit.
    erewrite bind_ok by (by apply assert_set_run).
    erewrite bind_ok by exact Hd.
    rewrite (in_rounds d Hrange). cbn [negb].
    erewrite bind_ok; [done|]. unfold dict_getitem. by rewrite Hb.
Qed.

Lemma bucket_path_outcomes bucket σ unsolvable anagram_map :
  bucket ≠ [] → (∀ w, w ∈ bucket → w ≠ EmptyString) →
  _ANAGRAM_MAP σ = Some anagram_map →
  match ((if negb unsolvable
          then base ← choice bucket; _shuffle_not_identity base
          else _generate_unsolvable_from_words bucket) σ).1 with
  | Ok p => p ≠ EmptyString
  | Raise e =>
      unsolvable = true
      ∧ (e = RuntimeError no_vowels_msg ∨ e = RuntimeError exhausted_msg)
  end.
Proof.
  intros Hne Hnb Ham.
  assert (∀ p q : string, q ≠ EmptyString → Py.chars p ≡ₚ Py.chars q →
            p ≠ EmptyString) as Hperm.
  { intros p q Hq Hp. rewrite <- chars_empty in *. intros E.
    rewrite E in Hp. by apply Permutation_nil_l in Hp. }
  destruct unsolvable; cbn [negb].
  - pose proof (generate_unsolvable_outcomes bucket σ anagram_map Ham) as Hout.
    cbv zeta in Hout.
    destruct (_generate_unsolvable_from_words bucket σ) as [[p|e] σ'];
      cbn [fst] in *.
    + destruct Hout as (base & mutated & _ & Hmut & _ & Hp).
      apply single_vowel_mutations_sound, vowel_mutation_shape in Hmut
        as (Hmne & _).
      by apply (Hperm p mutated).
    + split; [done|]. destruct Hout as [[_ ->]|(_ & -> & _)]; [by left|by right].
  - destruct (choice_run bucket σ Hne) as (base & σ2 & Hch & Hbase & _).
    destruct (shuffle_not_identity_spec base σ2) as (p & σ' & Hsh & _ & Hp & _).
    erewrite bind_ok by exact Hch. rewrite Hsh. cbn [fst].
    apply (Hperm p base); [by apply Hnb|done].
Qed.

(** X19. In a world that serves a dictionary, [generate_puzzle] raises no
    other errors than these: the invalid-difficulty error, exactly when a
    difficulty outside 1..5 is given, and, on the unsolvable path only,
    the no-vowels and the exhausted error. On the solvable path with a
    valid or no difficulty it always returns, and what it returns on
    either path is never the empty string. *)
Theorem generate_puzzle_error_surface σ words difficulty unsolvable :
  serves σ words →
  match run (generate_puzzle difficulty unsolvable) σ with
  | Ok p =>
      p ≠ EmptyString
      ∧ ∀ d, difficulty = Some d → 1 ≤ d ≤ 5
  | Raise e =>
      (e = ValueError bad_difficulty_msg
       ∧ ∃ d, difficulty = Some d ∧ ¬ (1 ≤ d ≤ 5))
      ∨ (unsolvable = true
         ∧ (e = RuntimeError no_vowels_msg ∨ e = RuntimeError exhausted_msg)
         ∧ ∀ d, difficulty = Some d → 1 ≤ d ≤ 5)
  end.
Proof.
  intros Hs.
  destruct (serves_loaded σ words Hs) as [lines Hlines].
  assert (∀ bucket : list string, (∀ w, w ∈ bucket → w ∈ words) →
            ∀ w, w ∈ bucket → w ≠ EmptyString) as Hnb.
  { intros bucket Hsub w Hw. apply Hsub in Hw. rewrite Hlines in Hw.
    by apply loaded_word_shape in Hw as [? _]. }
  destruct difficulty as [d|].
  - destruct (decide (1 ≤ d ≤ 5)) as [Hd|Hd].
    + destruct (generate_puzzle_enters σ words d unsolvable Hs Hd)
        as (σ1 & bucket & _ & _ & Hne & Hsub & Ham & Hgen).
      unfold run. rewrite Hgen.
      pose proof (bucket_path_outcomes bucket σ1 unsolvable _ Hne
                    (Hnb bucket Hsub) Ham) as Hout.
      revert Hout.
      match goal with
      | |- match ?r with _ => _ end → _ => destruct r as [p|e]
      end; intros Hout.
      * split; [done|]. by intros ? [= <-].
      * right. destruct Hout as [-> He]. split_and!; [done..|].
        by intros ? [= <-].
    + destruct (init_serves σ words Hs) as (σ1 & Hinit & _ & Hbw & _).
      unfold run, generate_puzzle.
      erewrite bind_ok by exact Hinit.
      erewrite bind_ok by (by apply assert_set_run).
      erewrite bind_ok by reflexivity.
      rewrite (not_in_rounds d Hd). cbn [negb fst raise].
      left. split; [done|]. by exists d.
  - destruct (generate_puzzle_enters_random σ words unsolvable Hs)
      as (σ2 & d & bucket & _ & _ & Hne & Hsub & Ham & Hgen).
    unfold run. rewrite Hgen.
    pose proof (bucket_path_outcomes bucket σ2 unsolvable _ Hne
                  (Hnb bucket Hsub) Ham) as Hout.
    revert Hout.
    match goal with
    | |- match ?r with _ => _ end → _ => destruct r as [p|e]
    end; intros Hout.
    + by split.
    + right. destruct Hout as [-> He]. by split_and!.
Qed.

Lemma generate_puzzle_error_surface_witness :
  let σ := fresh (Some sample_file) [0; 3; 1]%nat in
  serves σ sample_words
  ∧ run (generate_puzzle (Some 0) false) σ = Raise (ValueError bad_difficulty_msg)
  ∧ match run (generate_puzzle None true) σ with
    | Ok p =>
        p ≠ EmptyString
        ∧ ∀ d, (None : option Z) = Some d → 1 ≤ d ≤ 5
    | Raise e =>
        (e = ValueError bad_difficulty_msg
         ∧ ∃ d, (None : option Z) = Some d ∧ ¬ (1 ≤ d ≤ 5))
        ∨ (true = true
           ∧ (e = RuntimeError no_vowels_msg ∨ e = RuntimeError exhausted_msg)
           ∧ ∀ d, (None : option Z) = Some d → 1 ≤ d ≤ 5)
    end.
Proof.
  intros σ. split; [apply sample_served|]. split; [vm_compute; reflexivity|].
  exact (generate_puzzle_error_surface σ sample_words None true (sample_served _)).
Defined.
